(** * test-queue: the SQLite job queue of [src/lib/db.ts], its input
    validation ([src/lib/validation.ts]) and the route [/api/queue].

    The development is a shallow embedding.  The [jobs] table is a list of
    rows in rowid order, every SQL statement of the source is one function
    on that list, and the exported functions of [db.ts] are programs in a
    small state-and-exception monad over the table.

    Conventions.
    - Timestamps.  SQLite's [datetime(...)] yields the text
      [YYYY-MM-DD HH:MM:SS]; on such texts the comparison [<] of the
      source is the comparison of the instants, so a timestamp is the
      number of seconds of that instant, a [Z].  Every exported function
      reads the clock once: its first argument [now].
    - [crypto.randomUUID()] is an input of [addJob], the identifier drawn.
    - [JSON.stringify] and [JSON.parse] are built-ins of the JavaScript
      runtime; the operations are parametric in them (class [JSON]).
    - [config] holds the three settings read at start-up, each a
      non-negative integer. *)

From Stdlib Require Import ZArith List String Ascii Bool Lia PrimFloat.
From Stdlib Require Import Sorted Permutation FloatOps SpecFloat.
From Stdlib Require Uint63.
From stdpp Require Import base option list strings pretty gmap.

Set Warnings "-register-all".
Local Open Scope string_scope.
Local Open Scope list_scope.
Local Open Scope Z_scope.

(** ** JavaScript values, as [request.json()] produces them *)

(** A number is an IEEE 754 binary64; an object keeps its properties in
    insertion order. *)
Inductive value : Type :=
| VNull
| VBool (b : bool)
| VNum (x : float)
| VStr (s : string)
| VArr (items : list value)
| VObj (props : list (string * value)).

(** [JSON.stringify] on a value of the type above always yields a string;
    [JSON.parse] throws a [SyntaxError] on a malformed text, here [None]. *)
Class JSON := {
  JSON_stringify : value → string;
  JSON_parse : string → option value
}.

(** ** [src/lib/config.ts] *)

Record Config := {
  jobTimeoutMinutes : N;
  maxPayloadBytes : N;
  cleanupAfterDays : N
}.

(** ** The [jobs] table of [getDb] *)

Inductive job_status := waiting | active | completed | failed.

Definition status_eqb (a b : job_status) : bool :=
  match a, b with
  | waiting, waiting | active, active
  | completed, completed | failed, failed => true
  | _, _ => false
  end.

(** The text stored in the [status] column. *)
Definition status_name (s : job_status) : string :=
  match s with
  | waiting => "waiting"
  | active => "active"
  | completed => "completed"
  | failed => "failed"
  end.

(** One row.  [None] is SQL [NULL]. *)
Record job := {
  id : string;
  type : string;
  data : string;
  status : job_status;
  result : option string;
  error : option string;
  retried : Z;
  created_at : Z;
  started_at : option Z;
  completed_at : option Z
}.

Definition table := list job.

(** [col < cutoff] in a [WHERE] clause: a [NULL] column never matches. *)
Definition before (col : option Z) (cutoff : Z) : bool :=
  match col with
  | Some t => t <? cutoff
  | None => false
  end.

(** [datetime('now', '-' || n || ' minutes')] and [... ' days'] *)
Definition minutes_ago (now : Z) (n : N) : Z := now - 60 * Z.of_N n.
Definition days_ago (now : Z) (n : N) : Z := now - 86400 * Z.of_N n.

(** *** SQL statements on the table *)

(** [UPDATE jobs SET set WHERE cond]: the number of rows matched, and the
    table with every matching row rewritten. *)
Definition sql_update (cond : job → bool) (set : job → job) (t : table)
  : nat * table :=
  (length (List.filter cond t),
   List.map (fun j => if cond j then set j else j) t).

(** [DELETE FROM jobs WHERE cond] *)
Definition sql_delete (cond : job → bool) (t : table) : nat * table :=
  (length (List.filter cond t), List.filter (fun j => negb (cond j)) t).

(** [SELECT ... WHERE cond ORDER BY created_at LIMIT 1]: the first row, in
    table order, among the matching rows of least [created_at]. *)
Fixpoint sql_select_oldest (cond : job → bool) (t : table) : option job :=
  match t with
  | [] => None
  | j :: rest =>
      if cond j then
        match sql_select_oldest cond rest with
        | Some k => if created_at k <? created_at j then Some k else Some j
        | None => Some j
        end
      else sql_select_oldest cond rest
  end.

(** [INSERT INTO jobs (id, type, data) VALUES (?, ?, ?)]: the other columns
    take their defaults; [id] is the primary key, a second row with the same
    [id] is refused ([None]). *)
Definition sql_insert (now : Z) (i ty d : string) (t : table) : option table :=
  if existsb (fun j => String.eqb (id j) i) t then None
  else Some (t ++ [ {| id := i; type := ty; data := d; status := waiting;
                       result := None; error := None; retried := 0;
                       created_at := now; started_at := None;
                       completed_at := None |} ]).

(** [SELECT status, COUNT( * ) FROM jobs GROUP BY status]: one row for each
    status that occurs. *)
Definition sql_count_by_status (t : table) : list (job_status * nat) :=
  List.filter (fun r => negb (Nat.eqb (snd r) 0))
    (List.map (fun s => (s, length (List.filter (fun j => status_eqb (status j) s) t)))
       [active; completed; failed; waiting]).

(** *** The monad of database programs *)

Inductive outcome (A : Type) : Type :=
| Returned (a : A)
| Thrown (msg : string).
Arguments Returned {A} a.
Arguments Thrown {A} msg.

Definition db (A : Type) : Type := table → outcome A * table.

Definition throw {A} (msg : string) : db A := fun t => (Thrown msg, t).

#[export] Instance db_ret : MRet db := fun A a t => (Returned a, t).

#[export] Instance db_bind : MBind db := fun A B k m t =>
  match m t with
  | (Returned a, t') => k a t'
  | (Thrown msg, t') => (Thrown msg, t')
  end.

(** [db.prepare(...).run(...)] of a statement that cannot fail: its
    [info.changes]. *)
Definition run (stmt : table → nat * table) : db nat :=
  fun t => let (n, t') := stmt t in (Returned n, t').

(** [db.prepare(...).get()] *)
Definition get {A} (query : table → A) : db A :=
  fun t => (Returned (query t), t).

(** [db.transaction(fn)()]: when [fn] throws, the table is rolled back and
    the exception propagates. *)
Definition transaction {A} (m : db A) : db A :=
  fun t =>
    match m t with
    | (Returned a, t') => (Returned a, t')
    | (Thrown msg, _) => (Thrown msg, t)
    end.

(** ** [src/lib/db.ts]: the operations *)

Definition set_waiting (j : job) : job :=
  {| id := id j; type := type j; data := data j; status := waiting;
     result := result j; error := error j; retried := retried j;
     created_at := created_at j; started_at := None;
     completed_at := completed_at j |}.

Definition set_failed (now : Z) (e : string) (j : job) : job :=
  {| id := id j; type := type j; data := data j; status := failed;
     result := result j; error := Some e; retried := retried j;
     created_at := created_at j; started_at := started_at j;
     completed_at := Some now |}.

Definition set_active (now : Z) (j : job) : job :=
  {| id := id j; type := type j; data := data j; status := active;
     result := result j; error := error j; retried := retried j + 1;
     created_at := created_at j; started_at := Some now;
     completed_at := completed_at j |}.

Definition set_completed (now : Z) (r : string) (j : job) : job :=
  {| id := id j; type := type j; data := data j; status := completed;
     result := Some r; error := error j; retried := retried j;
     created_at := created_at j; started_at := started_at j;
     completed_at := Some now |}.

(** [SET status = 'completed', result = NULL, completed_at = datetime('now')] *)
Definition set_completed_null (now : Z) (j : job) : job :=
  {| id := id j; type := type j; data := data j; status := completed;
     result := None; error := error j; retried := retried j;
     created_at := created_at j; started_at := started_at j;
     completed_at := Some now |}.

(** What [claimNextJob] hands to the worker. *)
Record claimed := { job_id : string; job_type : string; job_data : value }.

Section Operations.
Context {J : JSON} (config : Config).

Definition addJob (uuid : string) (now : Z) (ty : string) (d : value)
  : db string :=
  fun t =>
    match sql_insert now uuid ty (JSON_stringify d) t with
    | Some t' => (Returned uuid, t')
    | None => (Thrown "UNIQUE constraint failed: jobs.id", t)
    end.

(** The [WHERE] clause of the two recovery statements of [claimNextJob]:
    [status = 'active' AND retried = n AND started_at < datetime('now', '-'
    || ? || ' minutes')]. *)
Definition stale (now : Z) (n : Z) (j : job) : bool :=
  status_eqb (status j) active
  && (retried j =? n)
  && before (started_at j) (minutes_ago now (jobTimeoutMinutes config)).

(** The first [UPDATE]: recover timed-out jobs (only if not already
    retried). *)
Definition recover_timed_out (now : Z) : table → nat * table :=
  sql_update (stale now 0) set_waiting.

(** The second [UPDATE]: mark timed-out retried jobs as failed. *)
Definition fail_timed_out (now : Z) : table → nat * table :=
  sql_update (stale now 1) (set_failed now "Timed out after retry").

(** The table once the two recovery statements have run. *)
Definition after_recovery (now : Z) (t : table) : table :=
  (fail_timed_out now (recover_timed_out now t).2).2.

Definition is_waiting (j : job) : bool := status_eqb (status j) waiting.

Definition has_id (i : string) (j : job) : bool := String.eqb (id j) i.

Definition claimNextJob (now : Z) : db (option claimed) :=
  transaction (
    run (recover_timed_out now) ;;
    run (fail_timed_out now) ;;
    job ← get (sql_select_oldest is_waiting) ;
    match job with
    | None => mret None
    | Some job =>
        run (sql_update (has_id (id job)) (set_active now)) ;;
        match JSON_parse (data job) with
        | Some d =>
            mret (Some {| job_id := id job; job_type := type job;
                          job_data := d |})
        | None => throw "SyntaxError"
        end
    end).

Definition is_active_with_id (i : string) (j : job) : bool :=
  has_id i j && status_eqb (status j) active.

Definition completeJob (now : Z) (i : string) (r : value) : db bool :=
  info ← run (sql_update (is_active_with_id i)
                (set_completed now (JSON_stringify r))) ;
  mret (0 <? info)%nat.

Definition failJob (now : Z) (i : string) (e : string) : db bool :=
  info ← run (sql_update (is_active_with_id i) (set_failed now e)) ;
  mret (0 <? info)%nat.

(** [completeJob(id, undefined)], which [PUT] makes for a report without
    [result]: [JSON.stringify(undefined)] is [undefined], and the driver
    binds it as [NULL]. *)
Definition completeJob_no_result (now : Z) (i : string) : db bool :=
  info ← run (sql_update (is_active_with_id i) (set_completed_null now)) ;
  mret (0 <? info)%nat.

(** The object literal of [getJobCounts]: the four defaults first, then
    the entries of the query, which replace a default of the same key. *)
Definition getJobCounts : db (gmap string nat) :=
  rows ← get sql_count_by_status ;
  mret (foldl (fun (m : gmap string nat) kv => <[kv.1 := kv.2]> m)
         (∅ : gmap string nat)
         ([("waiting", 0%nat); ("active", 0%nat);
           ("completed", 0%nat); ("failed", 0%nat)]
          ++ List.map (fun r => (status_name (fst r), snd r)) rows)).

Definition is_terminal (j : job) : bool :=
  status_eqb (status j) completed || status_eqb (status j) failed.

Definition expired (now : Z) (j : job) : bool :=
  is_terminal j
  && before (completed_at j) (days_ago now (cleanupAfterDays config)).

Definition cleanupOldJobs (now : Z) : db nat :=
  run (sql_delete (expired now)).

End Operations.

(** *** [getRecentJobs] *)

(** The four columns [getRecentJobs] selects. *)
Record recent_job := {
  recent_id : string;
  recent_type : string;
  recent_status : string;
  recent_created_at : Z
}.

Definition select_recent (j : job) : recent_job :=
  {| recent_id := id j; recent_type := type j;
     recent_status := status_name (status j);
     recent_created_at := created_at j |}.

(** [ORDER BY created_at DESC]: the rows from the newest to the oldest, rows
    of one [created_at] in table order. *)
Fixpoint insert_newer (j : job) (sorted : list job) : list job :=
  match sorted with
  | [] => [j]
  | k :: rest =>
      if created_at j <? created_at k then k :: insert_newer j rest
      else j :: sorted
  end.

Definition sql_order_by_created_at_desc (t : table) : list job :=
  fold_right insert_newer [] t.

(** [LIMIT n]: a negative [n] is no limit. *)
Definition sql_limit {A} (n : Z) (rows : list A) : list A :=
  if n <? 0 then rows else firstn (Z.to_nat n) rows.

(** [limit] is [None] when the caller passes no argument. *)
Definition getRecentJobs (limit : option Z) : db (list recent_job) :=
  let limit := default 100 limit in
  get (fun t =>
         List.map select_recent
           (sql_limit limit (sql_order_by_created_at_desc t))).


(** ** [src/lib/validation.ts] *)

(** A property read off a value, [undefined] being [None].  The keys read
    by the source are [type] and [data]: an array has neither, and an object
    holds a key once, so the first binding is the property. *)
Fixpoint assoc (k : string) (props : list (string * value)) : option value :=
  match props with
  | [] => None
  | (k', v) :: rest => if String.eqb k' k then Some v else assoc k rest
  end.

Definition get_prop (body : value) (k : string) : option value :=
  match body with
  | VObj props => assoc k props
  | _ => None
  end.

(** [!v] *)
Definition falsy (v : option value) : bool :=
  match v with
  | None | Some VNull => true
  | Some (VBool b) => negb b
  | Some (VNum x) => PrimFloat.eqb x 0%float || PrimFloat.is_nan x
  | Some (VStr s) => String.eqb s ""
  | Some (VArr _) | Some (VObj _) => false
  end.

(** [typeof v] *)
Definition typeof (v : option value) : string :=
  match v with
  | None => "undefined"
  | Some (VBool _) => "boolean"
  | Some (VNum _) => "number"
  | Some (VStr _) => "string"
  | Some VNull | Some (VArr _) | Some (VObj _) => "object"
  end.

Inductive ValidationResult :=
| Ok (type : string) (data : value)
| Invalid (error : string).

Section Validation.
Context {J : JSON} (config : Config).

Definition validateJobInput (body : value) : ValidationResult :=
  if falsy (Some body) || negb (String.eqb (typeof (Some body)) "object")
  then Invalid "Request body must be an object"
  else
    let type := get_prop body "type" in
    let data := get_prop body "data" in
    if falsy type || negb (String.eqb (typeof type) "string")
    then Invalid "type must be a non-empty string"
    else
      match type with
      | Some (VStr type) =>
          if 100 <? Z.of_nat (String.length type)
          then Invalid "type must be 100 characters or less"
          else
            match data with
            | None => Invalid "data is required"
            | Some data =>
                let dataStr := JSON_stringify data in
                if Z.of_N (maxPayloadBytes config) <? Z.of_nat (String.length dataStr)
                then Invalid ("data exceeds " +:+ pretty (maxPayloadBytes config)
                              +:+ " bytes")
                else Ok type data
            end
      | _ => Invalid "type must be a non-empty string"  (* not reached *)
      end.

End Validation.

(** The two statuses a worker may report. *)
Inductive report_status := report_completed | report_failed.

(** The result of [validateCompleteInput]; an absent [result] or [error]
    ([undefined]) is [None]. *)
Inductive CompleteValidationResult :=
| CompleteOk (status : report_status) (result : option value)
    (error : option string)
| CompleteInvalid (error : string).

Definition double_quote : string := String (ascii_of_nat 34) EmptyString.

(** The properties read are [status], [result] and [error], which an array
    does not have. *)
Definition validateCompleteInput (body : value) : CompleteValidationResult :=
  if falsy (Some body) || negb (String.eqb (typeof (Some body)) "object")
  then CompleteInvalid "Request body must be an object"
  else
    let status := get_prop body "status" in
    let result := get_prop body "result" in
    let error := get_prop body "error" in
    let error_text :=
      match error with
      | Some (VStr e) => Some e
      | _ => None
      end in
    match status with
    | Some (VStr st) =>
        if String.eqb st "completed"
        then CompleteOk report_completed result error_text
        else if String.eqb st "failed"
        then CompleteOk report_failed result error_text
        else CompleteInvalid
               ("status must be " +:+ double_quote +:+ "completed"
                +:+ double_quote +:+ " or " +:+ double_quote +:+ "failed"
                +:+ double_quote)
    | _ => CompleteInvalid
             ("status must be " +:+ double_quote +:+ "completed"
              +:+ double_quote +:+ " or " +:+ double_quote +:+ "failed"
              +:+ double_quote)
    end.

(** ** [src/app/api/queue/route.ts] *)

Record response := { http_status : Z; json : option value }.

Section Routes.
Context {J : JSON} (config : Config).

(** [POST]: [request_body] is the text of the request, read by
    [request.json()]. *)
Definition POST (uuid : string) (now : Z) (request_body : string)
  : db response :=
  match JSON_parse request_body with
  | None =>
      mret {| http_status := 400;
              json := Some (VObj [("error", VStr "Invalid JSON")]) |}
  | Some body =>
      match validateJobInput config body with
      | Invalid e =>
          mret {| http_status := 400;
                  json := Some (VObj [("error", VStr e)]) |}
      | Ok ty d =>
          i ← addJob uuid now ty d ;
          mret {| http_status := 201;
                  json := Some (VObj [("id", VStr i);
                                      ("status", VStr "waiting")]) |}
      end
  end.

(** [GET] *)
Definition GET (now : Z) : db response :=
  cleanupOldJobs config now ;;
  job ← claimNextJob config now ;
  match job with
  | None => mret {| http_status := 204; json := None |}
  | Some job =>
      mret {| http_status := 200;
              json := Some (VObj [("id", VStr (job_id job));
                                  ("type", VStr (job_type job));
                                  ("data", job_data job)]) |}
  end.

End Routes.

(** ** [src/app/api/queue/[id]/route.ts] *)

Section RouteById.
Context {J : JSON}.

(** [completeJob(id, undefined)], reached when the request has no [result]:
    [JSON.stringify] then yields [undefined], and what the database driver
    does with an [undefined] parameter is not in the source.  The driver in
    use binds it as [NULL]: [completeJob_no_result]. *)
Variable completeJob_undefined : Z → string → db bool.

(** [validation.error || 'Unknown error'] *)
Definition error_or_unknown (error : option string) : string :=
  match error with
  | Some e => if String.eqb e "" then "Unknown error" else e
  | None => "Unknown error"
  end.

(** [PUT]: [i] is the [id] of the route, [request_body] the text read by
    [request.json()]. *)
Definition PUT (now : Z) (i : string) (request_body : string) : db response :=
  match JSON_parse request_body with
  | None =>
      mret {| http_status := 400;
              json := Some (VObj [("error", VStr "Invalid JSON")]) |}
  | Some body =>
      match validateCompleteInput body with
      | CompleteInvalid e =>
          mret {| http_status := 400;
                  json := Some (VObj [("error", VStr e)]) |}
      | CompleteOk st result error =>
          (match st with
           | report_completed =>
               match result with
               | Some r => completeJob now i r
               | None => completeJob_undefined now i
               end
           | report_failed => failJob now i (error_or_unknown error)
           end) ≫= fun success : bool =>
          if success
          then mret {| http_status := 200;
                       json := Some (VObj [("success", VBool true)]) |}
          else mret {| http_status := 404;
                       json := Some (VObj [("error",
                                 VStr "Job not found or not active")]) |}
      end
  end.

End RouteById.

(** ** Histories of calls *)

(** The calls a producer, a worker or a route can make on the queue. *)
Inductive call :=
| Insert (uuid : string) (ty : string) (d : value)
| ClaimNext
| Complete (i : string) (r : value)
| CompleteNoResult (i : string)
| Fail (i : string) (e : string)
| Sweep.

Section Histories.
Context {J : JSON} (config : Config).

(** The table a call leaves behind, made at clock reading [now]. *)
Definition apply_call (t : table) (c : Z * call) : table :=
  let (now, c) := c in
  match c with
  | Insert uuid ty d => (addJob uuid now ty d t).2
  | ClaimNext => (claimNextJob config now t).2
  | Complete i r => (completeJob now i r t).2
  | CompleteNoResult i => (completeJob_no_result now i t).2
  | Fail i e => (failJob now i e t).2
  | Sweep => (cleanupOldJobs config now t).2
  end.

Definition run_calls (cs : list (Z * call)) (t : table) : table :=
  fold_left apply_call cs t.

(** The tables the operations can produce from the empty one. *)
Definition reachable (t : table) : Prop :=
  ∃ cs, t = run_calls cs [].

(** Whether a call, made on [t], is a [claimNextJob] that returns job [i]. *)
Definition claims (i : string) (t : table) (c : Z * call) : bool :=
  match c with
  | (now, ClaimNext) =>
      match (claimNextJob config now t).1 with
      | Returned (Some job) => String.eqb (job_id job) i
      | _ => false
      end
  | _ => false
  end.

(** How many times the history [cs], run from [t], claims job [i]. *)
Fixpoint times_claimed (i : string) (cs : list (Z * call)) (t : table) : nat :=
  match cs with
  | [] => 0
  | c :: cs' =>
      ((if claims i t c then 1 else 0) + times_claimed i cs' (apply_call t c))%nat
  end.

(** The identifiers the history draws for its inserts. *)
Definition inserted_ids (cs : list (Z * call)) : list string :=
  flat_map (fun c => match c with (_, Insert uuid _ _) => [uuid] | _ => [] end) cs.

End Histories.

(** ** Vocabulary of the properties *)

(** The number of rows of a status. *)
Definition count_status (s : job_status) (t : table) : nat :=
  length (List.filter (fun j => status_eqb (status j) s) t).

Definition insert_entry (m : gmap string nat) (kv : string * nat)
  : gmap string nat := <[kv.1 := kv.2]> m.

(** The retention period, in seconds. *)
Definition retention (config : Config) : Z :=
  86400 * Z.of_N (cleanupAfterDays config).

Section Vocabulary.
Context {J : JSON}.

(** Every payload stored in the table is a JSON text. *)
Definition parseable (t : table) : Prop :=
  ∀ j, In j t → is_Some (JSON_parse (data j)).

End Vocabulary.

(** What a single statement of [db.ts] can do to a row it keeps. *)
Inductive row_step : job → job → Prop :=
| row_claim now j :
    status j = waiting → row_step j (set_active now j)
| row_complete now r j :
    status j = active → row_step j (set_completed now r j)
| row_complete_null now j :
    status j = active → row_step j (set_completed_null now j)
| row_fail now e j :
    status j = active → row_step j (set_failed now e j)
| row_recover j :
    status j = active → retried j = 0 → row_step j (set_waiting j).

(** The shape of the rows the operations produce. *)
Definition row_consistent (j : job) : Prop :=
  match status j with
  | waiting => retried j = 0 ∧ started_at j = None ∧ completed_at j = None
  | active => retried j = 1 ∧ is_Some (started_at j) ∧ completed_at j = None
  | completed | failed =>
      retried j = 1 ∧ is_Some (started_at j) ∧ is_Some (completed_at j)
  end.

Definition table_consistent (t : table) : Prop :=
  List.NoDup (List.map id t) ∧ ∀ j, In j t → row_consistent j.

(** ** A configuration and a JSON codec to run examples with *)

(** The defaults of [config.ts]. *)
Definition default_config : Config :=
  {| jobTimeoutMinutes := 30%N; maxPayloadBytes := 1048576%N;
     cleanupAfterDays := 30%N |}.

(** A JSON codec for the values built from [null], the booleans, the
    integers below 2^53 in magnitude, strings without control characters,
    arrays and objects, written without white space.  As [JSON.stringify]
    does, it prints an integer in decimal, [-0] as [0], and [NaN] and the
    infinities as [null]; as [JSON.parse] does, it reads [0] as [0] and
    [-0] as [-0].  A number with a fractional part, or beyond 2^53, is
    outside it (printed as [null]). *)

(** The integer a number is, when it is one below 2^53 in magnitude. *)
Definition float_integer (x : float) : option Z :=
  match Prim2SF x with
  | S754_zero _ => Some 0
  | S754_finite s m e =>
      let v :=
        if 0 <=? e then Some (Z.pos m * 2 ^ e)
        else if Z.pos m mod 2 ^ (- e) =? 0 then Some (Z.pos m / 2 ^ (- e))
        else None in
      match v with
      | Some v => if v <? 2 ^ 53 then Some (if s then - v else v) else None
      | None => None
      end
  | _ => None
  end.

Definition number_text (x : float) : string :=
  match float_integer x with
  | Some z => pretty z
  | None => "null"
  end.

Definition float_of_Z (n : Z) : float := PrimFloat.of_uint63 (Uint63.of_Z n).

Definition is_digit (c : ascii) : bool :=
  (48 <=? nat_of_ascii c)%nat && (nat_of_ascii c <=? 57)%nat.

Fixpoint read_digits (acc : Z) (s : string) : Z * string :=
  match s with
  | String c rest =>
      if is_digit c
      then read_digits (10 * acc + (Z.of_nat (nat_of_ascii c) - 48)) rest
      else (acc, s)
  | EmptyString => (acc, s)
  end.

(** An integer literal: a sign, then digits. *)
Definition read_number (s : string) : option (float * string) :=
  let (negative, digits) :=
    match s with
    | String "-" rest => (true, rest)
    | _ => (false, s)
    end in
  match digits with
  | String c _ =>
      if is_digit c then
        let (n, rest) := read_digits 0 digits in
        if n <? 2 ^ 53
        then Some (if negative then PrimFloat.opp (float_of_Z n)
                   else float_of_Z n, rest)
        else None
      else None
  | EmptyString => None
  end.

Definition quote : ascii := ascii_of_nat 34.
Definition backslash : ascii := ascii_of_nat 92.

(** A string between quotes, [quote] and [backslash] escaped. *)
Fixpoint escape (s : string) : string :=
  match s with
  | EmptyString => EmptyString
  | String c rest =>
      if Ascii.eqb c quote || Ascii.eqb c backslash
      then String backslash (String c (escape rest))
      else String c (escape rest)
  end.

Definition quoted (s : string) : string :=
  String quote (escape s +:+ String quote EmptyString).

Fixpoint join (sep : string) (parts : list string) : string :=
  match parts with
  | [] => ""
  | [p] => p
  | p :: rest => p +:+ sep +:+ join sep rest
  end.

Fixpoint stringify_sample (v : value) : string :=
  match v with
  | VNull => "null"
  | VNum x => number_text x
  | VBool true => "true"
  | VBool false => "false"
  | VStr s => quoted s
  | VArr items => "[" +:+ join "," (List.map stringify_sample items) +:+ "]"
  | VObj props =>
      "{" +:+ join "," (List.map (fun kv => quoted (fst kv) +:+ ":"
                                          +:+ stringify_sample (snd kv)) props)
      +:+ "}"
  end.

(** The characters of a string literal up to its closing quote. *)
Fixpoint read_string (s : string) : option (string * string) :=
  match s with
  | EmptyString => None
  | String c rest =>
      if Ascii.eqb c quote then Some (EmptyString, rest)
      else if Ascii.eqb c backslash then
        match rest with
        | String c' rest' =>
            match read_string rest' with
            | Some (str, rest'') => Some (String c' str, rest'')
            | None => None
            end
        | EmptyString => None
        end
      else
        match read_string rest with
        | Some (str, rest') => Some (String c str, rest')
        | None => None
        end
  end.

Fixpoint read_value (fuel : nat) (s : string) : option (value * string) :=
  match fuel with
  | O => None
  | S fuel =>
      match s with
      | String "n" (String "u" (String "l" (String "l" rest))) =>
          Some (VNull, rest)
      | String "t" (String "r" (String "u" (String "e" rest))) =>
          Some (VBool true, rest)
      | String "f" (String "a" (String "l" (String "s" (String "e" rest)))) =>
          Some (VBool false, rest)
      | String "[" (String "]" rest) => Some (VArr [], rest)
      | String "[" rest =>
          match read_items fuel rest with
          | Some (items, rest') => Some (VArr items, rest')
          | None => None
          end
      | String "{" (String "}" rest) => Some (VObj [], rest)
      | String "{" rest =>
          match read_members fuel rest with
          | Some (props, rest') => Some (VObj props, rest')
          | None => None
          end
      | String c rest =>
          if Ascii.eqb c quote then
            match read_string rest with
            | Some (str, rest') => Some (VStr str, rest')
            | None => None
            end
          else
            match read_number s with
            | Some (x, rest') => Some (VNum x, rest')
            | None => None
            end
      | EmptyString => None
      end
  end
with read_items (fuel : nat) (s : string) : option (list value * string) :=
  match fuel with
  | O => None
  | S fuel =>
      match read_value fuel s with
      | Some (v, String "," rest) =>
          match read_items fuel rest with
          | Some (vs, rest') => Some (v :: vs, rest')
          | None => None
          end
      | Some (v, String "]" rest) => Some ([v], rest)
      | _ => None
      end
  end
with read_members (fuel : nat) (s : string)
  : option (list (string * value) * string) :=
  match fuel with
  | O => None
  | S fuel =>
      match s with
      | String c rest =>
          if Ascii.eqb c quote then
            match read_string rest with
            | Some (k, String ":" rest') =>
                match read_value fuel rest' with
                | Some (v, String "," rest'') =>
                    match read_members fuel rest'' with
                    | Some (kvs, rest''') => Some ((k, v) :: kvs, rest''')
                    | None => None
                    end
                | Some (v, String "}" rest'') => Some ([(k, v)], rest'')
                | _ => None
                end
            | _ => None
            end
          else None
      | EmptyString => None
      end
  end.

Definition parse_sample (s : string) : option value :=
  match read_value (S (String.length s)) s with
  | Some (v, EmptyString) => Some v
  | _ => None
  end.

Definition sample_JSON : JSON :=
  {| JSON_stringify := stringify_sample; JSON_parse := parse_sample |}.

(** Job [a] is inserted at second 0 and claimed at second 10. *)
Definition job_a_claimed : table :=
  run_calls (J := sample_JSON) default_config
    [(0, Insert "a" "email" (VStr "hi")); (10, ClaimNext)] [].

(** Job [a] is inserted, claimed and completed. *)
Definition job_a_completed : table :=
  run_calls (J := sample_JSON) default_config
    [(0, Insert "a" "email" (VStr "hi")); (10, ClaimNext);
     (20, Complete "a" (VBool true))] [].

(** Job [a] is inserted, and [claimNextJob] is called three times, the
    timeout elapsing between the calls. *)
Definition three_claims : list (Z * call) :=
  [(0, Insert "a" "email" (VStr "hi")); (10, ClaimNext);
   (2000, ClaimNext); (4000, ClaimNext)].

(** Two jobs wait, [a] created at second 1 and [b] at second 2. *)
Definition two_waiting : table :=
  run_calls (J := sample_JSON) default_config
    [(1, Insert "a" "email" (VStr "hi")); (2, Insert "b" "sms" VNull)] [].

(** A request whose [type] is the empty string. *)
Definition empty_type_body : value :=
  VObj [("type", VStr ""); ("data", VObj [("n", VNull)])].

(** The text of a reported status. *)
Definition report_name (st : report_status) : string :=
  match st with
  | report_completed => "completed"
  | report_failed => "failed"
  end.

(** The row [INSERT] creates. *)
Definition new_row (now : Z) (i ty d : string) : job :=
  {| id := i; type := ty; data := d; status := waiting;
     result := None; error := None; retried := 0;
     created_at := now; started_at := None; completed_at := None |}.

(** [result] is set on completed rows only, [error] on the failed rows and
    on no other. *)
Definition row_outcome (j : job) : Prop :=
  match status j with
  | waiting | active => result j = None ∧ error j = None
  | completed => error j = None
  | failed => result j = None ∧ is_Some (error j)
  end.

(** From the newest to the oldest: no row is older than a row after it. *)
Definition newest_first (rows : list job) : Prop :=
  StronglySorted (fun j k => created_at k ≤ created_at j) rows.

(** What the two recovery statements of [claimNextJob] make of a row. *)
Definition recovered (config : Config) (now : Z) (j : job) : job :=
  if stale config now 0 j then set_waiting j
  else if stale config now 1 j
       then set_failed now "Timed out after retry" j
       else j.

(** The answer of [GET] for what [claimNextJob] returned. *)
Definition job_response (job : option claimed) : response :=
  match job with
  | None => {| http_status := 204; json := None |}
  | Some job =>
      {| http_status := 200;
         json := Some (VObj [("id", VStr (job_id job));
                             ("type", VStr (job_type job));
                             ("data", job_data job)]) |}
  end.

(** Requests to run examples with. *)
Definition valid_job_body : value :=
  VObj [("type", VStr "email"); ("data", VObj [("to", VStr "x")])].

Definition completed_body : value :=
  VObj [("status", VStr "completed"); ("result", VObj [("sent", VBool true)])].

Definition failed_body_without_error : value :=
  VObj [("status", VStr "failed")].

(** Three jobs created at seconds 5, 9 and 7. *)
Definition three_jobs : table :=
  run_calls (J := sample_JSON) default_config
    [(5, Insert "a" "email" VNull); (9, Insert "b" "sms" VNull);
     (7, Insert "c" "push" VNull)] [].

(** The row of job [a] once claimed at second 10, and once completed at
    second 20. *)
Definition row_a_active : job :=
  {| id := "a"; type := "email"; data := quoted "hi"; status := active;
     result := None; error := None; retried := 1; created_at := 0;
     started_at := Some 10; completed_at := None |}.

Definition row_a_completed : job :=
  set_completed 20 (stringify_sample (VBool true)) row_a_active.

(** A claim, then a completion. *)
Definition claim_then_complete : list (Z * call) :=
  [(5, ClaimNext); (6, Complete "a" VNull)].



(** * Properties *)

(** ** Reading the monad *)

Lemma run_eq (stmt : table → nat * table) (t : table) :
  run stmt t = (Returned (stmt t).1, (stmt t).2).
Proof. unfold run. by destruct (stmt t). Qed.

Lemma bind_run_eq {B} (stmt : table → nat * table) (k : nat → db B) t :
  (run stmt ≫= k) t = k (stmt t).1 (stmt t).2.
Proof. unfold mbind, db_bind. by rewrite run_eq. Qed.

Lemma bind_get_eq {A B} (q : table → A) (k : A → db B) t :
  (get q ≫= k) t = k (q t) t.
Proof. reflexivity. Qed.

(** ** [getJobCounts] *)

Lemma status_eqb_eq a b : status_eqb a b = true ↔ a = b.
Proof. destruct a, b; simpl; split; congruence. Qed.

Lemma lookup_foldl_insert_entry (l : list (string * nat)) m k :
  foldl insert_entry m l !! k =
  match List.find (fun kv => String.eqb kv.1 k) (rev l) with
  | Some kv => Some kv.2
  | None => m !! k
  end.
Proof.
  revert m. induction l as [|[k' v] l IH] using rev_ind; intros m; [done|].
  rewrite foldl_app, rev_app_distr. simpl. unfold insert_entry at 1. simpl.
  destruct (String.eqb_spec k' k) as [->|Hne].
  - by rewrite lookup_insert_eq.
  - by rewrite lookup_insert_ne.
Qed.

Lemma is_Some_foldl_insert_entry (l : list (string * nat)) m k :
  is_Some (foldl insert_entry m l !! k) ↔
  is_Some (m !! k) ∨ In k (List.map fst l).
Proof.
  revert m. induction l as [|[k' v] l IH]; intros m; simpl; [tauto|].
  rewrite IH. unfold insert_entry. simpl.
  destruct (decide (k' = k)) as [->|Hne].
  - rewrite lookup_insert_eq. split; [auto|]. intros _. left. by eexists.
  - rewrite lookup_insert_ne by done. tauto.
Qed.

Lemma count_status_zero s t :
  count_status s t = 0%nat ↔ ∀ j, In j t → status j ≠ s.
Proof.
  unfold count_status. induction t as [|j t IH]; simpl.
  - split; [intros _ ? []|done].
  - destruct (status_eqb (status j) s) eqn:E; simpl.
    + split; [done|]. intros H. apply status_eqb_eq in E.
      exfalso. apply (H j); auto.
    + rewrite IH. split.
      * intros H k [<-|Hk]; [|by apply H].
        intros Hs. apply status_eqb_eq in Hs. congruence.
      * intros H k Hk. apply H. by right.
Qed.

(** C10. For every table, also the empty one, [getJobCounts] returns an
    object whose keys are exactly [waiting], [active], [completed] and
    [failed]; each key maps to the number of rows of that status, hence to 0
    when there is none; and the table is left as it was. *)
Theorem getJobCounts_all_four_keys (t : table) :
  ∃ m : gmap string nat,
    getJobCounts t = (Returned m, t)
    ∧ (∀ k, is_Some (m !! k) ↔
            k = "waiting" ∨ k = "active" ∨ k = "completed" ∨ k = "failed")
    ∧ (∀ s, m !! status_name s = Some (count_status s t))
    ∧ (∀ s, (∀ j, In j t → status j ≠ s) → m !! status_name s = Some 0%nat).
Proof.
  eexists. split; [reflexivity|].
  assert (Hlook : ∀ s,
    foldl (fun (m : gmap string nat) kv => <[kv.1 := kv.2]> m) ∅
      ([("waiting", 0%nat); ("active", 0%nat);
        ("completed", 0%nat); ("failed", 0%nat)]
       ++ List.map (fun r => (status_name (fst r), snd r))
            (sql_count_by_status t)) !! status_name s
    = Some (count_status s t)).
  { intros s. change (fun (m : gmap string nat) kv => <[kv.1 := kv.2]> m)
      with insert_entry.
    rewrite lookup_foldl_insert_entry. unfold sql_count_by_status. simpl.
    fold (count_status active t) (count_status completed t)
         (count_status failed t) (count_status waiting t).
    destruct (count_status active t) eqn:Ea,
             (count_status completed t) eqn:Ec,
             (count_status failed t) eqn:Ef,
             (count_status waiting t) eqn:Ew;
      destruct s; simpl; congruence. }
  split; [|split].
  - intros k.
    change (fun (m : gmap string nat) kv => <[kv.1 := kv.2]> m)
      with insert_entry.
    rewrite is_Some_foldl_insert_entry, lookup_empty, is_Some_alt.
    rewrite List.map_app, in_app_iff, List.map_map. simpl. split.
    + intros [[]|[H|H]]; [intuition auto|].
      apply in_map_iff in H as [[s n] [<- _]]. destruct s; simpl; auto.
    + intros H. right. left. intuition auto.
  - exact Hlook.
  - intros s Hs. rewrite Hlook. f_equal. by apply count_status_zero.
Qed.

(** ** The SQL statements *)

Lemma sql_update_none cond set (t : table) :
  (∀ j, In j t → cond j = false) → sql_update cond set t = (0%nat, t).
Proof.
  unfold sql_update. induction t as [|j t IH]; intros H; [done|]. simpl.
  rewrite (H j) by (by left). simpl.
  assert (IH' := IH (fun k Hk => H k (or_intror Hk))).
  inversion IH' as [[Hlen Hmap]]. by rewrite !Hmap, Hlen.
Qed.

Lemma sql_update_ids cond set (t : table) :
  (∀ j, id (set j) = id j) →
  List.map id (sql_update cond set t).2 = List.map id t.
Proof.
  intros Hid. unfold sql_update. simpl. rewrite List.map_map.
  apply List.map_ext. intros j. by destruct (cond j).
Qed.

Lemma sql_update_In cond set (t : table) j' :
  In j' (sql_update cond set t).2 ↔
  ∃ j, In j t ∧ j' = (if cond j then set j else j).
Proof.
  unfold sql_update. simpl. rewrite in_map_iff.
  split; intros (j & H1 & H2); exists j; auto.
Qed.

Lemma sql_update_changes cond set (t : table) :
  (0 <? (sql_update cond set t).1)%nat = true ↔ ∃ j, In j t ∧ cond j = true.
Proof.
  unfold sql_update. simpl. rewrite Nat.ltb_lt. split.
  - intros H. destruct (List.filter cond t) as [|j l] eqn:E; [simpl in H; lia|].
    exists j. apply filter_In. rewrite E. by left.
  - intros (j & Hj & Hc). assert (Hin : In j (List.filter cond t)).
    { apply filter_In. done. }
    destruct (List.filter cond t); [destruct Hin|simpl; lia].
Qed.

Lemma sql_delete_In cond (t : table) j :
  In j (sql_delete cond t).2 ↔ In j t ∧ cond j = false.
Proof.
  unfold sql_delete. simpl. rewrite filter_In.
  by destruct (cond j); simpl; intuition.
Qed.

Lemma sql_delete_count cond (t : table) :
  ((sql_delete cond t).1 + length (sql_delete cond t).2 = length t)%nat.
Proof.
  unfold sql_delete. simpl. induction t as [|j t IH]; [done|].
  simpl. destruct (cond j); simpl; lia.
Qed.

Lemma sql_select_oldest_None cond (t : table) :
  sql_select_oldest cond t = None ↔ ∀ j, In j t → cond j = false.
Proof.
  induction t as [|j t IH]; simpl.
  - split; [intros _ ? []|done].
  - destruct (cond j) eqn:E.
    + split.
      * destruct (sql_select_oldest cond t) as [k|]; [|done].
        by destruct (created_at k <? created_at j).
      * intros H. specialize (H j (or_introl eq_refl)). congruence.
    + rewrite IH. split.
      * intros H k [<-|Hk]; auto.
      * intros H k Hk. apply H. by right.
Qed.

Lemma sql_select_oldest_Some cond (t : table) j :
  sql_select_oldest cond t = Some j →
  In j t ∧ cond j = true
  ∧ ∀ k, In k t → cond k = true → created_at j ≤ created_at k.
Proof.
  revert j. induction t as [|a t IH]; intros j; simpl; [done|].
  destruct (cond a) eqn:Ea.
  - destruct (sql_select_oldest cond t) as [k|] eqn:Ek.
    + destruct (IH k eq_refl) as (Hin & Hc & Hmin).
      destruct (created_at k <? created_at a) eqn:Elt; intros [= <-].
      * apply Z.ltb_lt in Elt. split; [by right|]. split; [done|].
        intros x [<-|Hx] Hcx; [lia|by apply Hmin].
      * apply Z.ltb_ge in Elt. split; [by left|]. split; [done|].
        intros x [<-|Hx] Hcx; [lia|]. specialize (Hmin x Hx Hcx). lia.
    + intros [= <-]. split; [by left|]. split; [done|].
      intros x [<-|Hx] Hcx; [lia|].
      apply sql_select_oldest_None with (j := x) in Ek; [congruence|done].
  - intros H. destruct (IH j H) as (Hin & Hc & Hmin).
    split; [by right|]. split; [done|].
    intros x [<-|Hx] Hcx; [congruence|by apply Hmin].
Qed.

Lemma has_id_true i j : has_id i j = true ↔ id j = i.
Proof. unfold has_id. apply String.eqb_eq. Qed.

Lemma is_active_with_id_true i j :
  is_active_with_id i j = true ↔ id j = i ∧ status j = active.
Proof.
  unfold is_active_with_id.
  rewrite andb_true_iff, has_id_true, status_eqb_eq. done.
Qed.

(** ** [completeJob] and [failJob] *)

(** C5. When no row has the given id, or the row that has it is not
    [active], [completeJob] and [failJob] both return [false] and the table
    after the call is the table before it, row for row. *)
Theorem complete_fail_not_active_noop {J : JSON} (t : table) (now : Z)
    (i : string) (r : value) (e : string) :
  (∀ j, In j t → id j = i → status j ≠ active) →
  completeJob now i r t = (Returned false, t)
  ∧ failJob now i e t = (Returned false, t).
Proof.
  intros H.
  assert (Hc : ∀ j, In j t → is_active_with_id i j = false).
  { intros j Hj. destruct (is_active_with_id i j) eqn:E; [|done].
    apply is_active_with_id_true in E as [Hi Hs]. by destruct (H j Hj Hi). }
  unfold completeJob, failJob.
  rewrite !bind_run_eq, !sql_update_none by done. done.
Qed.

(** On an [active] row of that id both calls do take effect. *)
Lemma completeJob_active {J : JSON} (t : table) (now : Z) (r : value) j :
  In j t → status j = active →
  (completeJob now (id j) r t).1 = Returned true.
Proof.
  intros Hj Hs. unfold completeJob. rewrite bind_run_eq.
  cbn [fst mret db_ret]. f_equal. apply sql_update_changes.
  exists j. split; [done|]. by apply is_active_with_id_true.
Qed.

(** ** [cleanupOldJobs] *)

Lemma expired_true config now j :
  expired config now j = true ↔
  (status j = completed ∨ status j = failed)
  ∧ ∃ c, completed_at j = Some c ∧ retention config < now - c.
Proof.
  unfold expired, is_terminal, before, days_ago, retention.
  rewrite andb_true_iff, orb_true_iff, !status_eqb_eq.
  destruct (completed_at j) as [c|].
  - rewrite Z.ltb_lt. split.
    + intros [Hs Hc]. split; [done|]. exists c. split; [done|lia].
    + intros [Hs (c' & [= <-] & Hc)]. split; [done|lia].
  - split; [intros [_ ?]; done|intros [_ (c & ? & _)]; done].
Qed.

(** C7. [cleanupOldJobs] removes a row exactly when its status is
    [completed] or [failed] and [now - completed_at] exceeds the retention
    period; a [waiting] or [active] row is never removed; the rows kept stay
    as they were; and the number returned is the number of rows removed. *)
Theorem cleanupOldJobs_deletes_aged_terminal (config : Config) (now : Z)
    (t : table) :
  ∃ n t',
    cleanupOldJobs config now t = (Returned n, t')
    ∧ (∀ j, In j t →
         (¬ In j t' ↔
          (status j = completed ∨ status j = failed)
          ∧ ∃ c, completed_at j = Some c ∧ retention config < now - c))
    ∧ (∀ j, In j t → status j = waiting ∨ status j = active → In j t')
    ∧ (∀ j, In j t' → In j t)
    ∧ (n + length t' = length t)%nat.
Proof.
  exists (sql_delete (expired config now) t).1,
         (sql_delete (expired config now) t).2.
  split; [unfold cleanupOldJobs; apply run_eq|].
  split; [|split; [|split]].
  - intros j Hj. rewrite sql_delete_In, <- expired_true.
    destruct (expired config now j); intuition congruence.
  - intros j Hj Hs. apply sql_delete_In. split; [done|].
    destruct (expired config now j) eqn:E; [|done].
    apply expired_true in E as [[E|E] _]; destruct Hs; congruence.
  - intros j Hj. by apply sql_delete_In in Hj as [? _].
  - apply sql_delete_count.
Qed.

(** ** [claimNextJob] *)

Section ClaimNext.
Context {J : JSON} (config : Config).

Lemma claimNextJob_unfold now t :
  claimNextJob config now t =
  match sql_select_oldest is_waiting (after_recovery config now t) with
  | None => (Returned None, after_recovery config now t)
  | Some job =>
      match JSON_parse (data job) with
      | Some d =>
          (Returned (Some {| job_id := id job; job_type := type job;
                             job_data := d |}),
           (sql_update (has_id (id job)) (set_active now)
              (after_recovery config now t)).2)
      | None => (Thrown "SyntaxError", t)
      end
  end.
Proof.
  unfold claimNextJob, transaction, after_recovery.
  rewrite !bind_run_eq, bind_get_eq.
  destruct (sql_select_oldest _ _) as [job|]; [|done].
  rewrite bind_run_eq. by destruct (JSON_parse (data job)).
Qed.

Lemma stale_set_waiting now n j : stale config now n (set_waiting j) = false.
Proof. reflexivity. Qed.

Lemma after_recovery_In now t j' :
  In j' (after_recovery config now t) ↔
  ∃ j, In j t ∧
    j' = (if stale config now 0 j then set_waiting j
          else if stale config now 1 j
               then set_failed now "Timed out after retry" j
               else j).
Proof.
  unfold after_recovery, fail_timed_out, recover_timed_out.
  rewrite sql_update_In. split.
  - intros (k & Hk & ->). apply sql_update_In in Hk as (j & Hj & ->).
    exists j. split; [done|]. destruct (stale config now 0 j) eqn:E0; [|done].
    by rewrite stale_set_waiting.
  - intros (j & Hj & ->).
    exists (if stale config now 0 j then set_waiting j else j).
    split; [apply sql_update_In; by exists j|].
    destruct (stale config now 0 j) eqn:E0; [|done].
    by rewrite stale_set_waiting.
Qed.

Lemma after_recovery_data now t j' :
  In j' (after_recovery config now t) →
  ∃ j, In j t ∧ id j' = id j ∧ type j' = type j ∧ data j' = data j.
Proof.
  intros (j & Hj & ->)%after_recovery_In. exists j. split; [done|].
  by destruct (stale config now 0 j), (stale config now 1 j).
Qed.

Lemma after_recovery_parseable now t :
  parseable t → parseable (after_recovery config now t).
Proof.
  intros Hp j' (j & Hj & _ & _ & ->)%after_recovery_data. by apply Hp.
Qed.

End ClaimNext.

(** C6. Whenever a row is [waiting] once the two recovery statements of
    [claimNextJob] have run, the call returns a job that is [waiting] at that
    moment and whose [created_at] is least among the rows [waiting] at that
    moment, with its type and its parsed payload. *)
Theorem claimNextJob_takes_oldest_waiting {J : JSON} (config : Config)
    (now : Z) (t : table) :
  parseable t →
  (∃ k, In k (after_recovery config now t) ∧ status k = waiting) →
  ∃ job d t',
    claimNextJob config now t =
      (Returned (Some {| job_id := id job; job_type := type job;
                         job_data := d |}), t')
    ∧ In job (after_recovery config now t)
    ∧ status job = waiting
    ∧ JSON_parse (data job) = Some d
    ∧ ∀ k, In k (after_recovery config now t) → status k = waiting →
           created_at job ≤ created_at k.
Proof.
  intros Hp (k & Hk & Hw).
  rewrite claimNextJob_unfold.
  destruct (sql_select_oldest is_waiting (after_recovery config now t))
    as [job|] eqn:Esel.
  - destruct (sql_select_oldest_Some _ _ _ Esel) as (Hin & Hc & Hmin).
    destruct (after_recovery_parseable config now t Hp job Hin) as [d Hd].
    rewrite Hd. exists job, d. eexists. split; [reflexivity|].
    split; [done|]. split; [by apply status_eqb_eq|]. split; [done|].
    intros x Hx Hs. apply Hmin; [done|]. by apply status_eqb_eq.
  - rewrite sql_select_oldest_None in Esel. specialize (Esel k Hk).
    unfold is_waiting in Esel. rewrite Hw in Esel. done.
Qed.

(** ** The life of a row *)

Lemma row_step_id j j' : row_step j j' → id j' = id j.
Proof. by destruct 1. Qed.

Lemma row_steps_id j j' : rtc row_step j j' → id j' = id j.
Proof.
  induction 1 as [|a b c Hab _ IH]; [done|].
  rewrite IH. by apply row_step_id.
Qed.

Lemma row_step_payload j j' :
  row_step j j' → type j' = type j ∧ data j' = data j
                  ∧ created_at j' = created_at j.
Proof. by destruct 1. Qed.

Lemma row_steps_payload j j' :
  rtc row_step j j' → type j' = type j ∧ data j' = data j
                      ∧ created_at j' = created_at j.
Proof.
  induction 1 as [|a b c Hab _ IH]; [done|].
  destruct IH as (-> & -> & ->). by apply row_step_payload.
Qed.

Lemma row_step_consistent j j' :
  row_step j j' → row_consistent j → row_consistent j'.
Proof.
  unfold row_consistent.
  destruct 1 as [now j Hs|now r j Hs|now j Hs|now e j Hs|j Hs Hr];
    rewrite Hs; simpl; intros (H1 & H2 & H3).
  - rewrite H1, H3. done.
  - done.
  - done.
  - done.
  - lia.
Qed.

Lemma row_steps_consistent j j' :
  rtc row_step j j' → row_consistent j → row_consistent j'.
Proof.
  induction 1 as [|a b c Hab _ IH]; [done|].
  intros Ha. apply IH. by apply (row_step_consistent a).
Qed.

(** A consistent row that has left [waiting] never comes back to it. *)
Lemma row_step_stays_claimed j j' :
  row_step j j' → row_consistent j → status j ≠ waiting → status j' ≠ waiting.
Proof.
  unfold row_consistent.
  destruct 1 as [now j Hs|now r j Hs|now j Hs|now e j Hs|j Hs Hr];
    rewrite Hs; simpl; try done.
  intros (H1 & _). lia.
Qed.

Lemma row_steps_stays_claimed j j' :
  rtc row_step j j' → row_consistent j → status j ≠ waiting →
  status j' ≠ waiting.
Proof.
  induction 1 as [|a b c Hab _ IH]; [done|].
  intros Ha Hw. apply IH.
  - by apply (row_step_consistent a).
  - by apply (row_step_stays_claimed a).
Qed.

(** A row in a terminal status is not touched any more. *)
Lemma row_steps_terminal j j' :
  rtc row_step j j' → status j = completed ∨ status j = failed → j' = j.
Proof.
  destruct 1 as [|a b c Hab _]; [done|].
  intros Hs. destruct Hab; destruct Hs; congruence.
Qed.

Lemma NoDup_map_In_eq {A B} (f : A → B) (l : list A) a b :
  List.NoDup (List.map f l) → In a l → In b l → f a = f b → a = b.
Proof.
  induction l as [|x l IH]; simpl; [done|].
  inversion 1 as [|? ? Hx Hl]; subst.
  intros [->|Ha] [->|Hb] Hf; auto.
  - destruct Hx. rewrite Hf. by apply in_map.
  - destruct Hx. rewrite <- Hf. by apply in_map.
Qed.

Lemma NoDup_map_filter {A B} (f : A → B) (p : A → bool) (l : list A) :
  List.NoDup (List.map f l) → List.NoDup (List.map f (List.filter p l)).
Proof.
  induction l as [|x l IH]; simpl; [done|].
  inversion 1 as [|? ? Hx Hl]; subst.
  destruct (p x); simpl; [|by apply IH].
  constructor; [|by apply IH].
  intros (y & Hy & Hin)%in_map_iff. apply filter_In in Hin as [Hin _].
  apply Hx. rewrite <- Hy. by apply in_map.
Qed.

(** ** What a call does to the rows *)

Section Calls.
Context {J : JSON} (config : Config).

Lemma stale_true now n j :
  stale config now n j = true ↔
  status j = active ∧ retried j = n
  ∧ ∃ s, started_at j = Some s
         ∧ s < now - 60 * Z.of_N (jobTimeoutMinutes config).
Proof.
  unfold stale, before, minutes_ago.
  rewrite !andb_true_iff, status_eqb_eq, Z.eqb_eq.
  destruct (started_at j) as [s|].
  - rewrite Z.ltb_lt. split.
    + intros [[? ?] ?]. eauto.
    + intros (? & ? & s' & [= <-] & ?). done.
  - split; [intros [_ ?]; done|intros (_ & _ & s & ? & _); done].
Qed.

Lemma after_recovery_ids now t :
  List.map id (after_recovery config now t) = List.map id t.
Proof.
  unfold after_recovery, fail_timed_out, recover_timed_out.
  by rewrite !sql_update_ids.
Qed.

Lemma after_recovery_rows now t j' :
  In j' (after_recovery config now t) → ∃ j, In j t ∧ rtc row_step j j'.
Proof.
  intros (j & Hj & ->)%after_recovery_In. exists j. split; [done|].
  destruct (stale config now 0 j) eqn:E0.
  { apply stale_true in E0 as (Hs & Hr & _).
    apply rtc_once. by constructor. }
  destruct (stale config now 1 j) eqn:E1; [|done].
  apply stale_true in E1 as (Hs & _). apply rtc_once. by constructor.
Qed.

Lemma sql_insert_Some now i ty d t t' :
  sql_insert now i ty d t = Some t' →
  (∀ j, In j t → id j ≠ i)
  ∧ t' = t ++ [ {| id := i; type := ty; data := d; status := waiting;
                   result := None; error := None; retried := 0;
                   created_at := now; started_at := None;
                   completed_at := None |} ].
Proof.
  unfold sql_insert. destruct (existsb _ t) eqn:E; [done|].
  intros [= <-]. split; [|done]. intros j Hj Hid.
  assert (existsb (fun j => String.eqb (id j) i) t = true); [|congruence].
  apply existsb_exists. exists j. split; [done|]. by apply String.eqb_eq.
Qed.

Lemma apply_call_rows t c j' :
  List.NoDup (List.map id t) →
  In j' (apply_call config t c) →
  (∃ j, In j t ∧ rtc row_step j j')
  ∨ (∃ now ty d,
       c = (now, Insert (id j') ty d)
       ∧ (∀ j, In j t → id j ≠ id j')
       ∧ status j' = waiting ∧ retried j' = 0
       ∧ started_at j' = None ∧ completed_at j' = None
       ∧ type j' = ty ∧ data j' = JSON_stringify d).
Proof.
  intros Hnd. destruct c as [now [uuid ty d| |i r|i|i e|]];
    unfold apply_call; cbv beta iota.
  - unfold addJob.
    destruct (sql_insert now uuid ty (JSON_stringify d) t) as [t'|] eqn:E;
      simpl; [|by eauto using rtc_refl].
    apply sql_insert_Some in E as [Hfresh ->].
    intros [Hin|[<-|[]]]%in_app_iff; [by eauto using rtc_refl|].
    right. exists now, ty, d. simpl. by repeat split.
  - rewrite claimNextJob_unfold.
    destruct (sql_select_oldest is_waiting (after_recovery config now t))
      as [job|] eqn:Esel; simpl; [|by eauto using after_recovery_rows].
    destruct (JSON_parse (data job)) as [v|]; simpl;
      [|by eauto using rtc_refl].
    intros (k & Hk & ->)%sql_update_In. left.
    destruct (after_recovery_rows now t k Hk) as (j & Hj & Hjk).
    exists j. split; [done|].
    destruct (has_id (id job) k) eqn:Eid; [|done].
    apply has_id_true in Eid.
    apply sql_select_oldest_Some in Esel as (Hjob & Hw & _).
    assert (k = job) as ->.
    { apply (NoDup_map_In_eq id (after_recovery config now t)); auto.
      by rewrite after_recovery_ids. }
    eapply rtc_r; [done|]. constructor. by apply status_eqb_eq.
  - unfold completeJob. rewrite bind_run_eq. simpl.
    intros (j & Hj & ->)%sql_update_In. left. exists j. split; [done|].
    destruct (is_active_with_id i j) eqn:E; [|done].
    apply is_active_with_id_true in E as [_ Hs].
    apply rtc_once. by constructor.
  - unfold completeJob_no_result. rewrite bind_run_eq. simpl.
    intros (j & Hj & ->)%sql_update_In. left. exists j. split; [done|].
    destruct (is_active_with_id i j) eqn:E; [|done].
    apply is_active_with_id_true in E as [_ Hs].
    apply rtc_once. by constructor.
  - unfold failJob. rewrite bind_run_eq. simpl.
    intros (j & Hj & ->)%sql_update_In. left. exists j. split; [done|].
    destruct (is_active_with_id i j) eqn:E; [|done].
    apply is_active_with_id_true in E as [_ Hs].
    apply rtc_once. by constructor.
  - unfold cleanupOldJobs. rewrite run_eq. simpl.
    intros [Hj _]%sql_delete_In. eauto using rtc_refl.
Qed.

Lemma apply_call_NoDup t c :
  List.NoDup (List.map id t) → List.NoDup (List.map id (apply_call config t c)).
Proof.
  intros Hnd. destruct c as [now [uuid ty d| |i r|i|i e|]];
    unfold apply_call; cbv beta iota.
  - unfold addJob.
    destruct (sql_insert now uuid ty (JSON_stringify d) t) as [t'|] eqn:E;
      simpl; [|done].
    apply sql_insert_Some in E as [Hfresh ->].
    rewrite List.map_app. simpl. apply NoDup_app_remove_l with (l := []).
    simpl. apply NoDup_Add with (a := uuid) (l := List.map id t).
    + rewrite <- (app_nil_r (List.map id t)) at 1.
      apply Add_app.
    + split; [done|]. intros (j & Hid & Hj)%in_map_iff. by apply (Hfresh j).
  - rewrite claimNextJob_unfold.
    destruct (sql_select_oldest is_waiting (after_recovery config now t))
      as [job|]; cbn [snd]; [|by rewrite after_recovery_ids].
    destruct (JSON_parse (data job)); cbn [snd]; [|done].
    by rewrite sql_update_ids, after_recovery_ids.
  - unfold completeJob. rewrite bind_run_eq. cbn [snd mret db_ret].
    by rewrite sql_update_ids.
  - unfold completeJob_no_result. rewrite bind_run_eq. cbn [snd mret db_ret].
    by rewrite sql_update_ids.
  - unfold failJob. rewrite bind_run_eq. cbn [snd mret db_ret].
    by rewrite sql_update_ids.
  - unfold cleanupOldJobs. rewrite run_eq. cbn [snd]. by apply NoDup_map_filter.
Qed.

Lemma apply_call_consistent t c :
  table_consistent t → table_consistent (apply_call config t c).
Proof.
  intros [Hnd Hrows]. split; [by apply apply_call_NoDup|].
  intros j' [(j & Hj & Hstep)|(now & ty & d & _ & _ & Hs & Hr & Hst & Hc & _)]
    %apply_call_rows; [| |done].
  - apply (row_steps_consistent j); auto.
  - unfold row_consistent. by rewrite Hs.
Qed.

Lemma run_calls_consistent cs t :
  table_consistent t → table_consistent (run_calls config cs t).
Proof.
  revert t. induction cs as [|c cs IH]; intros t Ht; [done|].
  simpl. apply IH. by apply apply_call_consistent.
Qed.

Lemma reachable_consistent t : reachable config t → table_consistent t.
Proof.
  intros [cs ->]. apply run_calls_consistent. split; [constructor|].
  intros j [].
Qed.

End Calls.

(** ** Invariants of the reachable tables *)

Section Invariants.
Context {J : JSON} (config : Config).

(** C3, as amended. In every table reachable through [addJob],
    [claimNextJob], [completeJob], [failJob] and [cleanupOldJobs], a row is
    [active] if and only if its [started_at] is set, its [completed_at] is
    not set and its [retried] counter is at least 1. *)
Theorem active_iff_started_not_completed (t : table) :
  reachable config t →
  ∀ j, In j t →
    (status j = active ↔
     is_Some (started_at j) ∧ completed_at j = None ∧ 1 ≤ retried j).
Proof.
  intros [_ Hrows]%reachable_consistent j Hj.
  specialize (Hrows j Hj). unfold row_consistent in Hrows.
  destruct (status j); destruct Hrows as (Hr & Hs & Hc); split;
    try done; try (intros _; repeat split; [done|done|lia]).
  - intros (_ & _ & ?). lia.
  - intros (_ & Hn & _). rewrite Hn in Hc. by destruct Hc.
  - intros (_ & Hn & _). rewrite Hn in Hc. by destruct Hc.
Qed.

Lemma claims_true i t c :
  claims config i t c = true →
  ∃ now job,
    c = (now, ClaimNext)
    ∧ sql_select_oldest is_waiting (after_recovery config now t) = Some job
    ∧ id job = i
    ∧ apply_call config t c =
        (sql_update (has_id i) (set_active now) (after_recovery config now t)).2.
Proof.
  destruct c as [now [uuid ty d| |i' r|i'|i' e|]];
    unfold claims, apply_call; try discriminate.
  rewrite claimNextJob_unfold.
  destruct (sql_select_oldest is_waiting (after_recovery config now t))
    as [job|] eqn:Esel; [|discriminate].
  destruct (JSON_parse (data job)) as [d|]; [|discriminate].
  cbn [fst snd job_id]. intros Hid%String.eqb_eq.
  exists now, job. rewrite <- Hid. by repeat split.
Qed.

Lemma apply_call_stays_claimed i t c :
  table_consistent t →
  (∀ j, In j t → id j = i → status j ≠ waiting) →
  (∀ now ty d, c ≠ (now, Insert i ty d)) →
  ∀ j', In j' (apply_call config t c) → id j' = i → status j' ≠ waiting.
Proof.
  intros [Hnd Hrows] Hclaimed Hc j'
    [(j & Hj & Hstep)|(now & ty & d & -> & _)]%apply_call_rows Hid;
    [| |done].
  - apply (row_steps_stays_claimed j); auto.
    apply Hclaimed; [done|]. rewrite <- Hid. symmetry. by apply row_steps_id.
  - subst i. by destruct (Hc now ty d).
Qed.

(** A job that has left [waiting], and whose identifier is not drawn again,
    is not claimed any more. *)
Lemma times_claimed_zero i cs : ∀ t,
  table_consistent t →
  (∀ j, In j t → id j = i → status j ≠ waiting) →
  ¬ In i (inserted_ids cs) →
  times_claimed config i cs t = 0%nat.
Proof.
  induction cs as [|c cs IH]; intros t Ht Hclaimed Hfresh; [done|].
  cbn [times_claimed].
  destruct (claims config i t c) eqn:Ec.
  { apply claims_true in Ec as (now & job & -> & Hsel & Hid & _).
    apply sql_select_oldest_Some in Hsel as (Hin & Hw & _).
    apply after_recovery_rows in Hin as (j & Hj & Hstep).
    destruct Ht as [_ Hrows].
    destruct (row_steps_stays_claimed j job Hstep); auto.
    - apply Hclaimed; [done|]. rewrite <- Hid. symmetry. by apply row_steps_id.
    - by apply status_eqb_eq. }
  rewrite IH; [done| | |].
  - by apply apply_call_consistent.
  - apply apply_call_stays_claimed; auto.
    intros now ty d ->. apply Hfresh. simpl. by left.
  - intros Hin. apply Hfresh. unfold inserted_ids. simpl.
    apply in_app_iff. by right.
Qed.

(** When no identifier is drawn twice, a history claims a job at most
    once. *)
Lemma times_claimed_at_most_once i cs : ∀ t,
  table_consistent t →
  List.NoDup (inserted_ids cs) →
  (∀ j, In j t → ¬ In (id j) (inserted_ids cs)) →
  (times_claimed config i cs t ≤ 1)%nat.
Proof.
  induction cs as [|c cs IH]; intros t Ht Hnd Hold; [simpl; lia|].
  cbn [times_claimed].
  destruct (claims config i t c) eqn:Ec.
  - apply claims_true in Ec as (now & job & -> & Hsel & Hid & Ht').
    apply sql_select_oldest_Some in Hsel as (Hin & Hw & _).
    apply after_recovery_rows in Hin as (j & Hj & Hstep).
    rewrite times_claimed_zero; [lia| | |].
    + by apply apply_call_consistent.
    + rewrite Ht'. intros j' (k & Hk & ->)%sql_update_In.
      destruct (has_id i k) eqn:Ek; [done|].
      intros Hidk%has_id_true. congruence.
    + specialize (Hold j Hj). simpl in Hold.
      rewrite <- Hid, (row_steps_id _ _ Hstep). done.
  - simpl. apply IH.
    + by apply apply_call_consistent.
    + unfold inserted_ids in Hnd. simpl in Hnd.
      by apply NoDup_app_remove_l in Hnd.
    + destruct Ht as [Hids _].
      intros j' [(j & Hj & Hstep)|(now & ty & d & -> & _)]%apply_call_rows;
        [| |done].
      * rewrite (row_steps_id _ _ Hstep). intros Hin.
        apply (Hold j Hj). unfold inserted_ids. simpl.
        apply in_app_iff. by right.
      * unfold inserted_ids in Hnd. simpl in Hnd.
        by inversion Hnd.
Qed.

(** C4. In every reachable table the [retried] counter of every row is at
    most 1; and in a history whose inserts draw distinct identifiers, so
    that an identifier names one job for its whole life, [claimNextJob]
    returns any given job at most twice. *)
Theorem retried_at_most_one (cs : list (Z * call)) :
  (∀ j, In j (run_calls config cs []) → 0 ≤ retried j ≤ 1)
  ∧ (List.NoDup (inserted_ids cs) →
     ∀ i, (times_claimed config i cs [] ≤ 2)%nat).
Proof.
  assert (H0 : table_consistent []).
  { split; [constructor|]. intros j []. }
  split.
  - intros j Hj.
    destruct (run_calls_consistent config cs [] H0) as [_ Hrows].
    specialize (Hrows j Hj). unfold row_consistent in Hrows.
    destruct (status j); lia.
  - intros Hnd i.
    assert (times_claimed config i cs [] ≤ 1)%nat; [|lia].
    by apply times_claimed_at_most_once.
Qed.

End Invariants.

(** ** Timeouts *)

Section Timeouts.
Context {J : JSON} (config : Config).

(** In a reachable table the first [UPDATE] of [claimNextJob] finds no row:
    an [active] row has been claimed, and the claim left its counter at 1. *)
Lemma recover_timed_out_finds_nothing now t :
  reachable config t → recover_timed_out config now t = (0%nat, t).
Proof.
  intros [_ Hrows]%reachable_consistent. apply sql_update_none.
  intros j Hj. destruct (stale config now 0 j) eqn:E; [|done].
  apply stale_true in E as (Hs & Hr & _).
  specialize (Hrows j Hj). unfold row_consistent in Hrows.
  rewrite Hs in Hrows. lia.
Qed.

End Timeouts.

(** ** Payloads *)


(** ** Validation *)

(** C9. A body whose [type] property is the empty string, is not a
    string, or is missing, is refused by [validateJobInput]; [POST] then
    answers 400 with that error and the table is left as it was, so no row
    is created. *)
Theorem validateJobInput_rejects_empty_type {J : JSON} (config : Config)
    (body : value) (request_body : string) :
  (∀ s, get_prop body "type" = Some (VStr s) → s = "") →
  JSON_parse request_body = Some body →
  ∃ e,
    validateJobInput config body = Invalid e
    ∧ ∀ uuid now t,
        POST config uuid now request_body t
        = (Returned {| http_status := 400;
                       json := Some (VObj [("error", VStr e)]) |}, t).
Proof.
  intros Hty Hparse.
  assert (∃ e, validateJobInput config body = Invalid e) as [e He].
  { unfold validateJobInput.
    destruct (falsy (Some body) || _); [by eexists|].
    destruct (get_prop body "type") as [[|b|x|s|items|props]|] eqn:E;
      try (by eexists);
      try (destruct (falsy _ || _); by eexists).
    rewrite (Hty s eq_refl). by eexists. }
  exists e. split; [done|]. intros uuid now t.
  unfold POST. by rewrite Hparse, He.
Qed.

(** ** The operations at work *)

Section Examples.
#[local] Existing Instance sample_JSON.

(** C1. Job [a], claimed once at second 10 and still [active], is older
    than the 30 minutes of the timeout at second 2000.  [claimNextJob],
    called then, does not put it back to [waiting] with [started_at]
    cleared: the row ends [failed], [started_at] still set, and the call
    returns no job. *)
Theorem first_timeout_fails_the_job :
  job_a_claimed =
    [ {| id := "a"; type := "email"; data := quoted "hi"; status := active;
         result := None; error := None; retried := 1; created_at := 0;
         started_at := Some 10; completed_at := None |} ]
  ∧ claimNextJob (J := sample_JSON) default_config 2000 job_a_claimed =
      (Returned None,
       [ {| id := "a"; type := "email"; data := quoted "hi";
            status := failed; result := None;
            error := Some "Timed out after retry"; retried := 1;
            created_at := 0; started_at := Some 10;
            completed_at := Some 2000 |} ]).
Proof. split; reflexivity. Qed.

(** C2. Where the code departs from the claim: job [a], claimed once and
    timed out once, is not reclaimable.  The [claimNextJob] that finds it
    timed out returns no job and fails it at once, with the error text
    ["Timed out after retry"], and no later [claimNextJob] hands it out. *)
Lemma timed_out_once_is_not_reclaimed :
  (claimNextJob (J := sample_JSON) default_config 2000 job_a_claimed).1
    = Returned None
  ∧ ¬ (∃ now c,
        (claimNextJob (J := sample_JSON) default_config now
           (claimNextJob (J := sample_JSON) default_config 2000
              job_a_claimed).2).1
        = Returned (Some c))
  ∧ List.map error
      (claimNextJob (J := sample_JSON) default_config 2000 job_a_claimed).2
    = [Some "Timed out after retry"]
  ∧ "Timed out after retry" ≠ "timed out after retry".
Proof.
  split; [reflexivity|]. split; [|split; [reflexivity|discriminate]].
  intros (now & c & H). discriminate H.
Qed.

(** Against C3 as stated: a completed row keeps its [started_at] and its
    counter, and is not [active]. *)
Lemma completed_row_keeps_started_at :
  ¬ (∀ t, reachable (J := sample_JSON) default_config t →
       ∀ j, In j t →
         (status j = active ↔ is_Some (started_at j) ∧ 1 ≤ retried j)).
Proof.
  intros H.
  assert (Hr : reachable (J := sample_JSON) default_config job_a_completed).
  { eexists. reflexivity. }
  destruct (H job_a_completed Hr _ (or_introl eq_refl)) as [_ H'].
  cbn in H'. discriminate H'. split; [by eexists|lia].
Qed.

Lemma active_iff_started_not_completed_witness :
  reachable (J := sample_JSON) default_config job_a_claimed
  ∧ ∀ j, In j job_a_claimed →
      (status j = active ↔
       is_Some (started_at j) ∧ completed_at j = None ∧ 1 ≤ retried j).
Proof.
  assert (Hr : reachable (J := sample_JSON) default_config job_a_claimed).
  { eexists. reflexivity. }
  split; [exact Hr|].
  exact (active_iff_started_not_completed (J := sample_JSON)
           default_config job_a_claimed Hr).
Defined.

Lemma retried_at_most_one_witness :
  List.NoDup (inserted_ids three_claims)
  ∧ (times_claimed (J := sample_JSON) default_config "a" three_claims [] ≤ 2)%nat.
Proof.
  assert (Hnd : List.NoDup (inserted_ids three_claims)).
  { repeat constructor. intros []. }
  split; [exact Hnd|].
  apply (retried_at_most_one (J := sample_JSON) default_config); exact Hnd.
Defined.

Lemma complete_fail_not_active_noop_witness :
  completeJob (J := sample_JSON) 5 "a" (VBool true) two_waiting
    = (Returned false, two_waiting)
  ∧ failJob 5 "a" "boom" two_waiting = (Returned false, two_waiting).
Proof.
  apply (complete_fail_not_active_noop (J := sample_JSON)).
  intros j [<-|[<-|[]]] _; discriminate.
Defined.

Lemma claimNextJob_takes_oldest_waiting_witness :
  ∃ job d t',
    claimNextJob (J := sample_JSON) default_config 5 two_waiting =
      (Returned (Some {| job_id := id job; job_type := type job;
                         job_data := d |}), t')
    ∧ In job (after_recovery default_config 5 two_waiting)
    ∧ status job = waiting
    ∧ JSON_parse (JSON := sample_JSON) (data job) = Some d
    ∧ ∀ k, In k (after_recovery default_config 5 two_waiting) →
           status k = waiting → created_at job ≤ created_at k.
Proof.
  apply (claimNextJob_takes_oldest_waiting (J := sample_JSON)).
  - intros j [<-|[<-|[]]]; vm_compute; eexists; reflexivity.
  - eexists. split; [left; reflexivity|reflexivity].
Defined.



Lemma validateJobInput_rejects_empty_type_witness :
  ∃ e,
    validateJobInput (J := sample_JSON) default_config empty_type_body
      = Invalid e
    ∧ ∀ uuid now t,
        POST (J := sample_JSON) default_config uuid now
          (stringify_sample empty_type_body) t
        = (Returned {| http_status := 400;
                       json := Some (VObj [("error", VStr e)]) |}, t).
Proof.
  apply (validateJobInput_rejects_empty_type (J := sample_JSON)).
  - intros s [= <-]. reflexivity.
  - reflexivity.
Defined.

End Examples.

(** * Further properties *)

(** ** Validation of the two request bodies *)

Lemma get_prop_Some_object body k v :
  get_prop body k = Some v →
  falsy (Some body) || negb (String.eqb (typeof (Some body)) "object") = false.
Proof. by destruct body. Qed.

(** X1. [validateJobInput] accepts a body exactly when its [type] is a
    string that is not empty and has at most 100 characters, its [data] is
    present, and the JSON text of [data] has at most [maxPayloadBytes]
    characters; it then returns that type and that data. *)
Theorem validateJobInput_accepts_iff {J : JSON} (config : Config)
    (body : value) (ty : string) (d : value) :
  validateJobInput config body = Ok ty d ↔
  get_prop body "type" = Some (VStr ty)
  ∧ ty ≠ ""
  ∧ (String.length ty ≤ 100)%nat
  ∧ get_prop body "data" = Some d
  ∧ (N.of_nat (String.length (JSON_stringify d)) ≤ maxPayloadBytes config)%N.
Proof.
  unfold validateJobInput. split.
  - destruct (falsy (Some body) || _); [done|].
    destruct (get_prop body "type") as [[|b|x|s|items|props]|] eqn:Ety;
      try done; try (by destruct (falsy _ || _)).
    cbn [falsy typeof]. destruct (String.eqb_spec s "") as [->|Hne]; [done|].
    cbn [orb negb String.eqb].
    replace (String.eqb "string" "string") with true by reflexivity.
    cbn [negb].
    destruct (100 <? Z.of_nat (String.length s)) eqn:Elen; [done|].
    destruct (get_prop body "data") as [d'|]; [|done].
    destruct (Z.of_N (maxPayloadBytes config) <? _) eqn:Emax; [done|].
    intros [= -> ->]. apply Z.ltb_ge in Elen, Emax.
    repeat split; auto; lia.
  - intros (Hty & Hne & Hlen & Hd & Hmax).
    rewrite (get_prop_Some_object _ _ _ Hty), Hty, Hd.
    cbn [falsy typeof]. destruct (String.eqb_spec ty "") as [->|_]; [done|].
    replace (String.eqb "string" "string") with true by reflexivity.
    cbn [orb negb].
    destruct (100 <? Z.of_nat (String.length ty)) eqn:Elen.
    { apply Z.ltb_lt in Elen. lia. }
    destruct (Z.of_N (maxPayloadBytes config) <? _) eqn:Emax; [|done].
    apply Z.ltb_lt in Emax. lia.
Qed.

(** X2. [validateCompleteInput] accepts a body exactly when its [status]
    is the string [completed] or the string [failed]; it hands on the
    [result] as it is, absent when absent, and the [error] only when it is
    a string. *)
Theorem validateCompleteInput_accepts_iff (body : value)
    (st : report_status) (r : option value) (e : option string) :
  validateCompleteInput body = CompleteOk st r e ↔
  get_prop body "status" = Some (VStr (report_name st))
  ∧ r = get_prop body "result"
  ∧ e = match get_prop body "error" with
        | Some (VStr e) => Some e
        | _ => None
        end.
Proof.
  unfold validateCompleteInput. split.
  - destruct (falsy (Some body) || _); [done|].
    destruct (get_prop body "status") as [[|b|x|s|items|props]|] eqn:Est;
      try done.
    destruct (String.eqb_spec s "completed") as [->|_].
    { intros [= <- <- <-]. done. }
    destruct (String.eqb_spec s "failed") as [->|_]; [|done].
    intros [= <- <- <-]. done.
  - intros (Hst & -> & ->).
    rewrite (get_prop_Some_object _ _ _ Hst), Hst. by destruct st.
Qed.

Lemma validateCompleteInput_accepts_iff_error body st r e :
  validateCompleteInput body = CompleteOk st r e →
  e = match get_prop body "error" with
      | Some (VStr e) => Some e
      | _ => None
      end.
Proof.
  unfold validateCompleteInput.
  destruct (falsy (Some body) || _); [done|].
  destruct (get_prop body "status") as [[|b|x|s|items|props]|]; try done.
  destruct (String.eqb s "completed"); [by intros [= <- <- <-]|].
  destruct (String.eqb s "failed"); [by intros [= <- <- <-]|done].
Qed.

(** ** The routes *)

Lemma sql_insert_fresh now i ty d (t : table) :
  (∀ j, In j t → id j ≠ i) →
  sql_insert now i ty d t = Some (t ++ [new_row now i ty d]).
Proof.
  intros Hfresh. unfold sql_insert.
  destruct (existsb _ t) eqn:E; [|done].
  apply existsb_exists in E as (j & Hj & Hid%String.eqb_eq).
  by destruct (Hfresh j Hj).
Qed.

(** X3. [POST] of a body that [validateJobInput] accepts, with an
    identifier no row has yet, answers 201 with that identifier and the
    status [waiting], and appends one row to the table: [waiting], with the
    type of the body, the JSON text of its data, the counter at 0 and no
    other column set; the rows already there are kept as they are. *)
Theorem POST_creates_waiting_job {J : JSON} (config : Config)
    (uuid : string) (now : Z) (request_body : string) (body : value)
    (ty : string) (d : value) (t : table) :
  JSON_parse request_body = Some body →
  validateJobInput config body = Ok ty d →
  (∀ j, In j t → id j ≠ uuid) →
  POST config uuid now request_body t =
    (Returned {| http_status := 201;
                 json := Some (VObj [("id", VStr uuid);
                                     ("status", VStr "waiting")]) |},
     t ++ [new_row now uuid ty (JSON_stringify d)]).
Proof.
  intros Hparse Hvalid Hfresh. unfold POST. rewrite Hparse, Hvalid.
  unfold mbind, db_bind, addJob. by rewrite sql_insert_fresh.
Qed.

Section RouteByIdProperties.
Context {J : JSON} (completeJob_undefined : Z → string → db bool).

Lemma not_active_update_noop i set (t : table) :
  (∀ j, In j t → id j = i → status j ≠ active) →
  sql_update (is_active_with_id i) set t = (0%nat, t).
Proof.
  intros H. apply sql_update_none. intros j Hj.
  destruct (is_active_with_id i j) eqn:E; [|done].
  apply is_active_with_id_true in E as [Hi Hs]. by destruct (H j Hj Hi).
Qed.

(** X4. [PUT] for an identifier that no row has, or whose row is not
    [active], answers 404 and leaves the table as it was, whether the body
    reports [failed], or reports [completed] with a result. *)
Theorem PUT_not_active_is_404 (now : Z) (i : string) (request_body : string)
    (body : value) (st : report_status) (r : option value)
    (e : option string) (t : table) :
  JSON_parse request_body = Some body →
  validateCompleteInput body = CompleteOk st r e →
  (st = report_completed → is_Some r) →
  (∀ j, In j t → id j = i → status j ≠ active) →
  PUT completeJob_undefined now i request_body t =
    (Returned {| http_status := 404;
                 json := Some (VObj [("error",
                           VStr "Job not found or not active")]) |}, t).
Proof.
  intros Hparse Hvalid Hres Hna. unfold PUT. rewrite Hparse, Hvalid.
  destruct st.
  - destruct (Hres eq_refl) as [v ->].
    unfold mbind at 1, db_bind at 1, completeJob.
    rewrite bind_run_eq, not_active_update_noop by done. done.
  - unfold mbind at 1, db_bind at 1, failJob.
    rewrite bind_run_eq, not_active_update_noop by done. done.
Qed.

Lemma active_update_changes i set (t : table) j :
  In j t → id j = i → status j = active →
  (0 <? (sql_update (is_active_with_id i) set t).1)%nat = true.
Proof.
  intros Hj Hi Hs. apply sql_update_changes. exists j.
  split; [done|]. by apply is_active_with_id_true.
Qed.

Lemma active_update_rows i set (t : table) j :
  In j t → id j = i → status j = active →
  In (set j) (sql_update (is_active_with_id i) set t).2
  ∧ (∀ k, In k t → id k ≠ i → In k (sql_update (is_active_with_id i) set t).2)
  ∧ length (sql_update (is_active_with_id i) set t).2 = length t.
Proof.
  intros Hj Hi Hs. split; [|split].
  - apply sql_update_In. exists j. split; [done|].
    by rewrite (proj2 (is_active_with_id_true i j)).
  - intros k Hk Hne. apply sql_update_In. exists k. split; [done|].
    destruct (is_active_with_id i k) eqn:E; [|done].
    by apply is_active_with_id_true in E as [? _].
  - unfold sql_update. cbn [snd]. apply length_map.
Qed.

(** X5. [PUT] reporting [completed] with a result, for the identifier of
    an [active] row, answers 200; that row is then [completed], holds the
    JSON text of the result and the time of the call as [completed_at];
    every row of another identifier is kept as it is and no row is added or
    removed. *)
Theorem PUT_completes_active_job (now : Z) (request_body : string)
    (body r : value) (e : option string) (t : table) (j : job) :
  JSON_parse request_body = Some body →
  validateCompleteInput body = CompleteOk report_completed (Some r) e →
  In j t →
  status j = active →
  ∃ t',
    PUT completeJob_undefined now (id j) request_body t =
      (Returned {| http_status := 200;
                   json := Some (VObj [("success", VBool true)]) |}, t')
    ∧ In (set_completed now (JSON_stringify r) j) t'
    ∧ (∀ k, In k t → id k ≠ id j → In k t')
    ∧ length t' = length t.
Proof.
  intros Hparse Hvalid Hj Hs.
  exists (sql_update (is_active_with_id (id j))
            (set_completed now (JSON_stringify r)) t).2.
  split; [|by apply active_update_rows].
  unfold PUT. rewrite Hparse, Hvalid.
  unfold mbind at 1, db_bind at 1, completeJob. rewrite bind_run_eq.
  cbn [mret db_ret]. by rewrite (active_update_changes _ _ _ j).
Qed.

(** X6. [PUT] reporting [failed], for the identifier of an [active] row,
    answers 200 and the row is then [failed] with the time of the call as
    [completed_at].  Its [error] is the one of the body; when the body has
    no [error], or one that is not a string, or the empty string, it is
    ["Unknown error"]. *)
Theorem PUT_failed_records_error (now : Z) (request_body : string)
    (body : value) (r : option value) (e : option string) (t : table)
    (j : job) :
  JSON_parse request_body = Some body →
  validateCompleteInput body = CompleteOk report_failed r e →
  In j t →
  status j = active →
  ∃ t' text,
    PUT completeJob_undefined now (id j) request_body t =
      (Returned {| http_status := 200;
                   json := Some (VObj [("success", VBool true)]) |}, t')
    ∧ In (set_failed now text j) t'
    ∧ (∀ e', get_prop body "error" = Some (VStr e') → e' ≠ "" → text = e')
    ∧ ((∀ e', get_prop body "error" = Some (VStr e') → e' = "") →
       text = "Unknown error").
Proof.
  intros Hparse Hvalid Hj Hs.
  exists (sql_update (is_active_with_id (id j))
            (set_failed now (error_or_unknown e)) t).2,
         (error_or_unknown e).
  apply validateCompleteInput_accepts_iff_error in Hvalid as He.
  split; [|split; [by apply active_update_rows|split]].
  - unfold PUT. rewrite Hparse, Hvalid.
    unfold mbind at 1, db_bind at 1, failJob. rewrite bind_run_eq.
    cbn [mret db_ret]. by rewrite (active_update_changes _ _ _ j).
  - intros e' He' Hne. rewrite He, He'. unfold error_or_unknown.
    by destruct (String.eqb_spec e' "").
  - intros Hempty. rewrite He. unfold error_or_unknown.
    destruct (get_prop body "error") as [[| | |e'| |]|]; try done.
    by rewrite (Hempty e' eq_refl).
Qed.

End RouteByIdProperties.

(** ** Completion, once *)

Lemma updated_rows_not_active i set (t : table) :
  (∀ j, status (set j) ≠ active) → (∀ j, id (set j) = id j) →
  ∀ k, In k (sql_update (is_active_with_id i) set t).2 →
       id k = i → status k ≠ active.
Proof.
  intros Hset Hid k (j & Hj & ->)%sql_update_In Hk.
  destruct (is_active_with_id i j) eqn:E; [apply Hset|].
  intros Hs. assert (is_active_with_id i j = true); [|congruence].
  by apply is_active_with_id_true.
Qed.

(** X7. On an [active] row [completeJob] and [failJob] return [true] and
    leave the row [completed], or [failed], with the time of the call; and
    after either of them a second report for the same identifier, of either
    kind, returns [false] and changes nothing. *)
Theorem report_takes_effect_once {J : JSON} (t : table) (now : Z)
    (r : value) (e : string) (j : job) :
  In j t →
  status j = active →
  (∃ t',
     completeJob now (id j) r t = (Returned true, t')
     ∧ In (set_completed now (JSON_stringify r) j) t'
     ∧ ∀ now' r' e',
         completeJob now' (id j) r' t' = (Returned false, t')
         ∧ failJob now' (id j) e' t' = (Returned false, t'))
  ∧ (∃ t',
       failJob now (id j) e t = (Returned true, t')
       ∧ In (set_failed now e j) t'
       ∧ ∀ now' r' e',
           completeJob now' (id j) r' t' = (Returned false, t')
           ∧ failJob now' (id j) e' t' = (Returned false, t')).
Proof.
  intros Hj Hs.
  assert (Hagain : ∀ set,
    (∀ k, status (set k) ≠ active) → (∀ k, id (set k) = id k) →
    ∀ now' r' e',
      completeJob now' (id j) r'
        (sql_update (is_active_with_id (id j)) set t).2
      = (Returned false, (sql_update (is_active_with_id (id j)) set t).2)
      ∧ failJob now' (id j) e'
          (sql_update (is_active_with_id (id j)) set t).2
        = (Returned false, (sql_update (is_active_with_id (id j)) set t).2)).
  { intros set Hset Hid now' r' e'.
    assert (Hna := updated_rows_not_active (id j) set t Hset Hid).
    remember (sql_update (is_active_with_id (id j)) set t).2 as t' eqn:Et'.
    unfold completeJob, failJob.
    by rewrite !bind_run_eq, !(not_active_update_noop (id j) _ t' Hna). }
  split.
  - eexists. split; [|split].
    + unfold completeJob. rewrite bind_run_eq. cbn [mret db_ret].
      by rewrite (active_update_changes _ _ _ j).
    + by apply active_update_rows.
    + by apply Hagain.
  - eexists. split; [|split].
    + unfold failJob. rewrite bind_run_eq. cbn [mret db_ret].
      by rewrite (active_update_changes _ _ _ j).
    + by apply active_update_rows.
    + by apply Hagain.
Qed.

(** ** Counting *)

Lemma count_status_total (t : table) :
  (count_status waiting t + count_status active t
   + count_status completed t + count_status failed t = length t)%nat.
Proof.
  unfold count_status. induction t as [|j t IH]; [done|].
  simpl. destruct (status j); simpl; lia.
Qed.

Lemma getJobCounts_lookup (t : table) :
  ∃ m : gmap string nat,
    getJobCounts t = (Returned m, t)
    ∧ ∀ s, m !! status_name s = Some (count_status s t).
Proof.
  eexists. split; [reflexivity|].
  assert (Hlook : ∀ s,
    foldl insert_entry ∅
      ([("waiting", 0%nat); ("active", 0%nat);
        ("completed", 0%nat); ("failed", 0%nat)]
       ++ List.map (fun r => (status_name (fst r), snd r))
            (sql_count_by_status t)) !! status_name s
    = Some (count_status s t)); [|exact Hlook].
  intros s. rewrite lookup_foldl_insert_entry.
  unfold sql_count_by_status. simpl.
  fold (count_status active t) (count_status completed t)
       (count_status failed t) (count_status waiting t).
  destruct (count_status active t) eqn:Ea,
           (count_status completed t) eqn:Ec,
           (count_status failed t) eqn:Ef,
           (count_status waiting t) eqn:Ew;
    destruct s; simpl; congruence.
Qed.

(** X8. The four numbers [getJobCounts] returns add up to the number of
    rows of the table: every row is counted, once. *)
Theorem getJobCounts_adds_up (t : table) :
  ∃ (m : gmap string nat) (w a c f : nat),
    (getJobCounts t).1 = Returned m
    ∧ m !! "waiting" = Some w ∧ m !! "active" = Some a
    ∧ m !! "completed" = Some c ∧ m !! "failed" = Some f
    ∧ (w + a + c + f = length t)%nat.
Proof.
  destruct (getJobCounts_lookup t) as (m & Hm & Hlook).
  exists m, (count_status waiting t), (count_status active t),
    (count_status completed t), (count_status failed t).
  rewrite Hm. split; [done|].
  split; [exact (Hlook waiting)|]. split; [exact (Hlook active)|].
  split; [exact (Hlook completed)|]. split; [exact (Hlook failed)|].
  apply count_status_total.
Qed.

(** ** [getRecentJobs] *)

Lemma insert_newer_Permutation j (l : list job) :
  Permutation (insert_newer j l) (j :: l).
Proof.
  induction l as [|k l IH]; simpl; [done|].
  destruct (created_at j <? created_at k); [|done].
  rewrite IH. apply perm_swap.
Qed.

Lemma sql_order_by_Permutation (t : table) :
  Permutation (sql_order_by_created_at_desc t) t.
Proof.
  unfold sql_order_by_created_at_desc.
  induction t as [|j t IH]; simpl; [done|].
  rewrite insert_newer_Permutation. by constructor.
Qed.

Lemma insert_newer_sorted j (l : list job) :
  newest_first l → newest_first (insert_newer j l).
Proof.
  unfold newest_first. induction l as [|k l IH]; simpl; intros Hl.
  - repeat constructor.
  - apply StronglySorted_inv in Hl as [Hl Hk].
    destruct (created_at j <? created_at k) eqn:E.
    + apply Z.ltb_lt in E. constructor; [by apply IH|].
      rewrite insert_newer_Permutation. constructor; [lia|done].
    + apply Z.ltb_ge in E. constructor; [by constructor|].
      constructor; [done|].
      eapply Forall_impl; [exact Hk|]. simpl. intros x Hx. lia.
Qed.

Lemma sql_order_by_sorted (t : table) :
  newest_first (sql_order_by_created_at_desc t).
Proof.
  unfold sql_order_by_created_at_desc.
  induction t as [|j t IH]; simpl; [constructor|].
  by apply insert_newer_sorted.
Qed.

Lemma newest_first_app (l1 l2 : list job) :
  newest_first (l1 ++ l2) →
  newest_first l1
  ∧ ∀ j k, In j l1 → In k l2 → created_at k ≤ created_at j.
Proof.
  unfold newest_first. induction l1 as [|a l1 IH]; simpl; intros H.
  - split; [constructor|]. intros j k [].
  - apply StronglySorted_inv in H as [H Ha].
    destruct (IH H) as [Hs Hcross]. split.
    + constructor; [done|].
      rewrite Forall_app in Ha. by destruct Ha.
    + intros j k [<-|Hj] Hk; [|by apply Hcross].
      rewrite Forall_forall in Ha. apply Ha.
      apply list_elem_of_In, in_app_iff. by right.
Qed.

Lemma sql_limit_split {A} (n : Z) (rows : list A) :
  ∃ rest, rows = sql_limit n rows ++ rest.
Proof.
  unfold sql_limit. destruct (n <? 0).
  - exists []. by rewrite app_nil_r.
  - exists (skipn (Z.to_nat n) rows). by rewrite firstn_skipn.
Qed.

(** X9. [getRecentJobs] does not write; the rows it returns are rows of
    the table, with their [id], [type], [status] and [created_at], from the
    newest to the oldest; and a row of the table it leaves out is not newer
    than any row it returns. *)
Theorem getRecentJobs_newest_first (limit : option Z) (t : table) :
  ∃ rows,
    getRecentJobs limit t = (Returned (List.map select_recent rows), t)
    ∧ newest_first rows
    ∧ (∀ j, In j rows → In j t)
    ∧ (∀ j k, In j rows → In k t → ¬ In k rows →
         created_at k ≤ created_at j).
Proof.
  set (n := default 100 limit).
  exists (sql_limit n (sql_order_by_created_at_desc t)).
  destruct (sql_limit_split n (sql_order_by_created_at_desc t))
    as [rest Hsplit].
  assert (Hsorted := sql_order_by_sorted t). rewrite Hsplit in Hsorted.
  apply newest_first_app in Hsorted as [Hs Hcross].
  split; [reflexivity|]. split; [done|]. split.
  - intros j Hj. apply (Permutation_in j (sql_order_by_Permutation t)).
    rewrite Hsplit. apply in_app_iff. by left.
  - intros j k Hj Hk Hnot. apply Hcross; [done|].
    apply (Permutation_in k (Permutation_sym (sql_order_by_Permutation t)))
      in Hk.
    rewrite Hsplit in Hk. apply in_app_iff in Hk as [Hk|Hk]; [|done].
    by destruct Hnot.
Qed.

(** X10. [getRecentJobs] returns at most [limit] rows, and all the rows
    when there are fewer; called without a limit it returns at most 100
    rows; and a negative limit is no limit. *)
Theorem getRecentJobs_length (limit : option Z) (t : table) :
  ∃ rows,
    (getRecentJobs limit t).1 = Returned rows
    ∧ (∀ n, limit = Some n → 0 ≤ n →
         length rows = Nat.min (Z.to_nat n) (length t))
    ∧ (limit = None → length rows = Nat.min 100 (length t))
    ∧ (∀ n, limit = Some n → n < 0 → length rows = length t).
Proof.
  eexists. split; [reflexivity|].
  assert (Hlen : length (sql_order_by_created_at_desc t) = length t).
  { apply Permutation_length, sql_order_by_Permutation. }
  rewrite length_map. unfold sql_limit.
  split; [|split].
  - intros n -> Hn. simpl. destruct (n <? 0) eqn:E.
    { apply Z.ltb_lt in E. lia. }
    by rewrite length_firstn, Hlen.
  - intros ->. simpl. by rewrite length_firstn, Hlen.
  - intros n -> Hn. simpl. destruct (n <? 0) eqn:E; [done|].
    apply Z.ltb_ge in E. lia.
Qed.

(** ** What the calls keep *)

Section Keeping.
Context {J : JSON} (config : Config).

(** X11. Along any history, the [type], the [data] and the [created_at] of
    a job never change: a row of the table reached either carries the
    identifier, type, data and creation time of a row of the table the
    history started from, or its identifier was inserted by the history. *)
Theorem payload_never_changes (cs : list (Z * call)) : ∀ (t : table),
  List.NoDup (List.map id t) →
  ∀ j', In j' (run_calls config cs t) →
    (∃ j, In j t ∧ id j' = id j ∧ type j' = type j ∧ data j' = data j
          ∧ created_at j' = created_at j)
    ∨ In (id j') (inserted_ids cs).
Proof.
  induction cs as [|c cs IH]; intros t Hnd j' Hj'.
  { left. exists j'. done. }
  simpl in Hj'.
  destruct (IH _ (apply_call_NoDup config t c Hnd) j' Hj')
    as [(j1 & Hj1 & Hi & Hty & Hd & Hc)|Hins].
  - apply apply_call_rows in Hj1
      as [(j & Hj & Hstep)|(now & ty & d & -> & _)]; [| |done].
    + left. exists j. split; [done|].
      destruct (row_steps_payload _ _ Hstep) as (Hty' & Hd' & Hc').
      rewrite Hi, Hty, Hd, Hc, (row_steps_id _ _ Hstep). done.
    + right. rewrite Hi. simpl. by left.
  - right. unfold inserted_ids. simpl. apply in_app_iff. by right.
Qed.

Lemma after_recovery_keeps now (t : table) j :
  In j t → ∃ j', In j' (after_recovery config now t) ∧ id j' = id j.
Proof.
  intros Hj. eexists. split; [apply after_recovery_In; by exists j|].
  by destruct (stale config now 0 j), (stale config now 1 j).
Qed.

Lemma sql_update_keeps cond set (t : table) j :
  (∀ k, id (set k) = id k) → In j t →
  ∃ j', In j' (sql_update cond set t).2 ∧ id j' = id j.
Proof.
  intros Hid Hj. eexists. split; [apply sql_update_In; by exists j|].
  by destruct (cond j).
Qed.

Lemma after_recovery_length now (t : table) :
  length (after_recovery config now t) = length t.
Proof.
  unfold after_recovery, fail_timed_out, recover_timed_out, sql_update.
  cbn [snd]. by rewrite !length_map.
Qed.

(** X12. Only [cleanupOldJobs] removes rows: after any other call every
    identifier of the table is still there, and the table has not shrunk. *)
Theorem only_the_sweep_deletes (t : table) (c : Z * call) :
  (∀ now, c ≠ (now, Sweep)) →
  (∀ j, In j t → ∃ j', In j' (apply_call config t c) ∧ id j' = id j)
  ∧ (length t ≤ length (apply_call config t c))%nat.
Proof.
  intros Hc. destruct c as [now [uuid ty d| |i r|i|i e|]];
    unfold apply_call; cbv beta iota.
  - unfold addJob.
    destruct (sql_insert now uuid ty (JSON_stringify d) t) as [t'|] eqn:E;
      cbn [snd]; [|by eauto].
    apply sql_insert_Some in E as [_ ->]. split.
    + intros j Hj. exists j. split; [|done]. apply in_app_iff. by left.
    + rewrite length_app. lia.
  - rewrite claimNextJob_unfold.
    destruct (sql_select_oldest is_waiting (after_recovery config now t))
      as [job|]; cbn [snd].
    + destruct (JSON_parse (data job)); cbn [snd]; [|by eauto]. split.
      * intros j Hj.
        destruct (after_recovery_keeps now t j Hj) as (j1 & Hj1 & Hi1).
        destruct (sql_update_keeps (has_id (id job)) (set_active now)
                    _ j1 (fun _ => eq_refl) Hj1) as (j2 & Hj2 & Hi2).
        exists j2. split; [done|congruence].
      * unfold sql_update. cbn [snd].
        by rewrite length_map, after_recovery_length.
    + split; [by apply after_recovery_keeps|].
      by rewrite after_recovery_length.
  - unfold completeJob. rewrite bind_run_eq. cbn [snd mret db_ret]. split.
    + intros j Hj. by apply sql_update_keeps.
    + unfold sql_update. cbn [snd]. by rewrite length_map.
  - unfold completeJob_no_result. rewrite bind_run_eq.
    cbn [snd mret db_ret]. split.
    + intros j Hj. by apply sql_update_keeps.
    + unfold sql_update. cbn [snd]. by rewrite length_map.
  - unfold failJob. rewrite bind_run_eq. cbn [snd mret db_ret]. split.
    + intros j Hj. by apply sql_update_keeps.
    + unfold sql_update. cbn [snd]. by rewrite length_map.
  - by destruct (Hc now).
Qed.

Lemma sql_update_untouched cond set (t : table) j :
  In j t → cond j = false → In j (sql_update cond set t).2.
Proof.
  intros Hj Hc. apply sql_update_In. exists j. by rewrite Hc.
Qed.

Lemma terminal_not_stale now n j :
  status j = completed ∨ status j = failed → stale config now n j = false.
Proof.
  intros Hs. destruct (stale config now n j) eqn:E; [|done].
  apply stale_true in E as (Ha & _). destruct Hs; congruence.
Qed.

Lemma terminal_after_recovery now (t : table) j :
  In j t → status j = completed ∨ status j = failed →
  In j (after_recovery config now t).
Proof.
  intros Hj Hs. apply after_recovery_In. exists j. split; [done|].
  by rewrite !terminal_not_stale.
Qed.

(** X13. A [completed] or [failed] row is final: no call modifies it, and
    the only call that removes it is a [cleanupOldJobs] made once its
    [completed_at] is older than the retention period. *)
Theorem terminal_row_is_final (t : table) (c : Z * call) (j : job) :
  List.NoDup (List.map id t) →
  In j t →
  status j = completed ∨ status j = failed →
  In j (apply_call config t c)
  ∨ ∃ now done_at,
      c = (now, Sweep) ∧ completed_at j = Some done_at
      ∧ retention config < now - done_at.
Proof.
  intros Hnd Hj Hs. destruct c as [now [uuid ty d| |i r|i|i e|]];
    unfold apply_call; cbv beta iota.
  - left. unfold addJob.
    destruct (sql_insert now uuid ty (JSON_stringify d) t) as [t'|] eqn:E;
      cbn [snd]; [|done].
    apply sql_insert_Some in E as [_ ->]. apply in_app_iff. by left.
  - left. rewrite claimNextJob_unfold.
    assert (Hj2 := terminal_after_recovery now t j Hj Hs).
    destruct (sql_select_oldest is_waiting (after_recovery config now t))
      as [job|] eqn:Esel; cbn [snd]; [|done].
    destruct (JSON_parse (data job)); cbn [snd]; [|done].
    apply sql_update_untouched; [done|].
    destruct (has_id (id job) j) eqn:E; [|done].
    apply has_id_true in E.
    apply sql_select_oldest_Some in Esel as (Hjob & Hw & _).
    assert (j = job) as ->.
    { apply (NoDup_map_In_eq id (after_recovery config now t)); auto.
      by rewrite after_recovery_ids. }
    apply status_eqb_eq in Hw. destruct Hs; congruence.
  - left. unfold completeJob. rewrite bind_run_eq. cbn [snd mret db_ret].
    apply sql_update_untouched; [done|].
    destruct (is_active_with_id i j) eqn:E; [|done].
    apply is_active_with_id_true in E as [_ E]. destruct Hs; congruence.
  - left. unfold completeJob_no_result. rewrite bind_run_eq.
    cbn [snd mret db_ret].
    apply sql_update_untouched; [done|].
    destruct (is_active_with_id i j) eqn:E; [|done].
    apply is_active_with_id_true in E as [_ E]. destruct Hs; congruence.
  - left. unfold failJob. rewrite bind_run_eq. cbn [snd mret db_ret].
    apply sql_update_untouched; [done|].
    destruct (is_active_with_id i j) eqn:E; [|done].
    apply is_active_with_id_true in E as [_ E]. destruct Hs; congruence.
  - unfold cleanupOldJobs. rewrite run_eq. cbn [snd].
    destruct (expired config now j) eqn:E.
    + right. apply expired_true in E as [_ (done_at & Hd & Hlt)].
      by exists now, done_at.
    + left. by apply sql_delete_In.
Qed.

(** X14. No double claim: in a history whose inserts draw distinct
    identifiers, [claimNextJob] returns any given job at most once. *)
Theorem no_double_claim (cs : list (Z * call)) (i : string) :
  List.NoDup (inserted_ids cs) →
  (times_claimed config i cs [] ≤ 1)%nat.
Proof.
  intros Hnd. apply times_claimed_at_most_once; [|done|by intros j []].
  split; [constructor|]. intros j [].
Qed.

Lemma row_step_outcome j j' : row_step j j' → row_outcome j → row_outcome j'.
Proof.
  unfold row_outcome.
  destruct 1 as [now j Hs|now r j Hs|now j Hs|now e j Hs|j Hs Hr];
    rewrite Hs; simpl; intros [H1 H2]; by eauto.
Qed.

Lemma row_steps_outcome j j' :
  rtc row_step j j' → row_outcome j → row_outcome j'.
Proof.
  induction 1 as [|a b c Hab _ IH]; [done|].
  intros Ha. apply IH. by apply (row_step_outcome a).
Qed.

Lemma apply_call_outcome (t : table) (c : Z * call) :
  List.NoDup (List.map id t) → (∀ j, In j t → row_outcome j) →
  ∀ j, In j (apply_call config t c) → row_outcome j.
Proof.
  intros Hnd Ht j' Hj'.
  assert (Hold : (∃ j, In j t ∧ rtc row_step j j') → row_outcome j').
  { intros (j & Hj & Hstep). apply (row_steps_outcome j); auto. }
  destruct c as [now [uuid ty d| |i r|i|i e|]].
  - unfold apply_call, addJob in Hj'.
    destruct (sql_insert now uuid ty (JSON_stringify d) t) as [t'|] eqn:E;
      cbn [snd] in Hj'; [|by auto].
    apply sql_insert_Some in E as [_ ->].
    apply in_app_iff in Hj' as [Hj'|[<-|[]]]; [by auto|done].
  - apply apply_call_rows in Hj' as [H|(? & ? & ? & [=] & _)]; auto.
  - apply apply_call_rows in Hj' as [H|(? & ? & ? & [=] & _)]; auto.
  - apply apply_call_rows in Hj' as [H|(? & ? & ? & [=] & _)]; auto.
  - apply apply_call_rows in Hj' as [H|(? & ? & ? & [=] & _)]; auto.
  - apply apply_call_rows in Hj' as [H|(? & ? & ? & [=] & _)]; auto.
Qed.

Lemma run_calls_outcome cs : ∀ (t : table),
  List.NoDup (List.map id t) → (∀ j, In j t → row_outcome j) →
  ∀ j, In j (run_calls config cs t) → row_outcome j.
Proof.
  induction cs as [|c cs IH]; intros t Hnd Ht; [done|].
  simpl. apply IH; [by apply apply_call_NoDup|].
  by apply apply_call_outcome.
Qed.

(** X15. In every reachable table the identifiers are pairwise distinct;
    a row that has a [result] is [completed] (a [completed] row has none
    when the report had none); [error] is set on the [failed] rows and on
    no other; and [completed_at] is set exactly on the [completed] and the
    [failed] rows. *)
Theorem reachable_rows_shape (t : table) :
  reachable config t →
  List.NoDup (List.map id t)
  ∧ ∀ j, In j t →
      (is_Some (result j) → status j = completed)
      ∧ (is_Some (error j) ↔ status j = failed)
      ∧ (is_Some (completed_at j) ↔
         status j = completed ∨ status j = failed).
Proof.
  intros Hr. destruct (reachable_consistent config t Hr) as [Hnd Hrows].
  split; [done|]. intros j Hj.
  assert (Ho : row_outcome j).
  { destruct Hr as [cs ->].
    apply (run_calls_outcome cs []); [constructor|by intros ? []|done]. }
  specialize (Hrows j Hj). unfold row_outcome in Ho.
  unfold row_consistent in Hrows.
  destruct (status j); destruct Hrows as (_ & _ & Hc).
  - destruct Ho as [Hres Herr]. rewrite Hres, Herr, Hc.
    repeat split; try done; try (by intros [? ?]); by intros [?|?].
  - destruct Ho as [Hres Herr]. rewrite Hres, Herr, Hc.
    repeat split; try done; try (by intros [? ?]); by intros [?|?].
  - rewrite Ho. repeat split; try done; try (by intros [? ?]); auto.
  - destruct Ho as [Hres Herr]. rewrite Hres.
    repeat split; try done; try (by intros [? ?]); auto.
Qed.

End Keeping.

(** ** [GET]: the sweep, then the claim *)

Section GetRoute.
Context {J : JSON} (config : Config).

Lemma after_recovery_map now (t : table) :
  after_recovery config now t = List.map (recovered config now) t.
Proof.
  unfold after_recovery, fail_timed_out, recover_timed_out, sql_update.
  cbn [snd]. rewrite List.map_map. apply List.map_ext. intros j.
  unfold recovered. destruct (stale config now 0 j); [|done].
  by rewrite stale_set_waiting.
Qed.

Lemma GET_unfold now (t : table) :
  GET config now t =
  match claimNextJob config now (sql_delete (expired config now) t).2 with
  | (Returned job, t') => (Returned (job_response job), t')
  | (Thrown msg, t') => (Thrown msg, t')
  end.
Proof.
  unfold GET, cleanupOldJobs. rewrite bind_run_eq.
  unfold mbind, db_bind.
  destruct (claimNextJob config now _) as [[[job|]|msg] t']; done.
Qed.

Lemma select_oldest_map_filter cond (g : job → job) (keep : job → bool)
    (t : table) :
  (∀ j, In j t → keep j = false → cond (g j) = false) →
  sql_select_oldest cond (List.map g (List.filter keep t))
  = sql_select_oldest cond (List.map g t).
Proof.
  induction t as [|j t IH]; intros H; [done|]. simpl.
  assert (IH' := IH (fun k Hk => H k (or_intror Hk))).
  destruct (keep j) eqn:E; simpl; [by rewrite IH'|].
  by rewrite (H j (or_introl eq_refl) E).
Qed.

Lemma map_filter_commute (g : job → job) (keep : job → bool) (t : table) :
  (∀ j, In j t → keep (g j) = keep j) →
  List.map g (List.filter keep t) = List.filter keep (List.map g t).
Proof.
  induction t as [|j t IH]; intros H; [done|]. simpl.
  rewrite (H j (or_introl eq_refl)).
  assert (IH' := IH (fun k Hk => H k (or_intror Hk))).
  destruct (keep j); simpl; by rewrite IH'.
Qed.

Lemma expired_not_terminal now j :
  status j = waiting ∨ status j = active → expired config now j = false.
Proof.
  intros Hs. destruct (expired config now j) eqn:E; [|done].
  apply expired_true in E as [[E|E] _]; destruct Hs; congruence.
Qed.

Lemma expired_recovered now j :
  expired config now (recovered config now j) = expired config now j.
Proof.
  unfold recovered.
  destruct (stale config now 0 j) eqn:E0.
  { apply stale_true in E0 as (Hs & _).
    rewrite (expired_not_terminal now j) by auto.
    by apply expired_not_terminal; left. }
  destruct (stale config now 1 j) eqn:E1; [|done].
  apply stale_true in E1 as (Hs & _).
  rewrite (expired_not_terminal now j) by auto.
  unfold expired, before, days_ago. cbn [completed_at set_failed].
  apply andb_false_iff. right. apply Z.ltb_ge. lia.
Qed.

(** X16. The cleanup [GET] starts with does not change which job is handed
    out: [GET] answers as [claimNextJob] alone would have (204 when it
    returns no job, 200 with the job otherwise, the exception when it
    throws), and the table [GET] leaves is the one [claimNextJob] followed
    by [cleanupOldJobs] would leave. *)
Theorem GET_is_claim_then_sweep (now : Z) (t : table) :
  List.NoDup (List.map id t) →
  GET config now t =
  match claimNextJob config now t with
  | (Returned job, t') =>
      (Returned (job_response job), (cleanupOldJobs config now t').2)
  | (Thrown msg, t') => (Thrown msg, (cleanupOldJobs config now t').2)
  end.
Proof.
  intros Hnd. rewrite GET_unfold, !claimNextJob_unfold.
  set (keep := fun j => negb (expired config now j)).
  assert (Hdel : ∀ t0 : table,
            (sql_delete (expired config now) t0).2 = List.filter keep t0).
  { done. }
  assert (Hsweep : ∀ t0 : table,
            (cleanupOldJobs config now t0).2 = List.filter keep t0).
  { intros t0. unfold cleanupOldJobs. by rewrite run_eq. }
  rewrite Hdel, !after_recovery_map.
  assert (Hkeep : ∀ j, keep (recovered config now j) = keep j).
  { intros j. unfold keep. by rewrite expired_recovered. }
  assert (Hsel :
    sql_select_oldest is_waiting
      (List.map (recovered config now) (List.filter keep t))
    = sql_select_oldest is_waiting (List.map (recovered config now) t)).
  { apply select_oldest_map_filter. intros j _ Hk.
    unfold keep in Hk. apply negb_false_iff, expired_true in Hk as [Hs _].
    unfold recovered. rewrite !terminal_not_stale by done.
    unfold is_waiting. by destruct Hs as [-> | ->]. }
  rewrite Hsel.
  destruct (sql_select_oldest is_waiting (List.map (recovered config now) t))
    as [job|] eqn:Esel.
  - destruct (JSON_parse (data job)) as [d|]; rewrite Hsweep; [|done].
    f_equal. unfold sql_update. cbn [snd].
    rewrite (map_filter_commute (recovered config now)) by auto.
    apply map_filter_commute.
    intros k Hk. destruct (has_id (id job) k) eqn:E; [|done].
    apply has_id_true in E.
    apply sql_select_oldest_Some in Esel as (Hjob & Hw & _).
    assert (k = job) as ->.
    { apply (NoDup_map_In_eq id (List.map (recovered config now) t)); auto.
      by rewrite <- after_recovery_map, after_recovery_ids. }
    apply status_eqb_eq in Hw. unfold keep.
    rewrite !expired_not_terminal; auto.
  - rewrite Hsweep. f_equal. by apply map_filter_commute.
Qed.

End GetRoute.

(** ** More on [claimNextJob] and [cleanupOldJobs] *)

Section ClaimAndSweep.
Context {J : JSON} (config : Config).

(** X17. When [claimNextJob] returns a job, the row of that job was
    [waiting] once the recovery statements had run, and the call leaves it
    [active] with [started_at] at the time of the call and its counter one
    higher; every other row is left as the recovery statements left it, and
    no row is added or removed. *)
Theorem claimNextJob_marks_the_job (now : Z) (t t' : table) (c : claimed) :
  List.NoDup (List.map id t) →
  claimNextJob config now t = (Returned (Some c), t') →
  ∃ job,
    In job (after_recovery config now t)
    ∧ status job = waiting
    ∧ job_id c = id job ∧ job_type c = type job
    ∧ In (set_active now job) t'
    ∧ (∀ k, In k (after_recovery config now t) → k ≠ job → In k t')
    ∧ (∀ k', In k' t' →
         k' = set_active now job ∨ In k' (after_recovery config now t))
    ∧ length t' = length t.
Proof.
  intros Hnd. rewrite claimNextJob_unfold.
  destruct (sql_select_oldest is_waiting (after_recovery config now t))
    as [job|] eqn:Esel; [|done].
  destruct (JSON_parse (data job)) as [d|]; [|done].
  intros [= <- <-]. exists job.
  apply sql_select_oldest_Some in Esel as (Hjob & Hw%status_eqb_eq & _).
  assert (Huniq : ∀ k, In k (after_recovery config now t) →
            has_id (id job) k = true → k = job).
  { intros k Hk E%has_id_true.
    apply (NoDup_map_In_eq id (after_recovery config now t)); auto.
    by rewrite after_recovery_ids. }
  repeat split; auto.
  - apply sql_update_In. exists job. split; [done|].
    by rewrite (proj2 (has_id_true (id job) job)).
  - intros k Hk Hne. apply sql_update_untouched; [done|].
    destruct (has_id (id job) k) eqn:E; [|done]. by destruct Hne; auto.
  - intros k' (k & Hk & ->)%sql_update_In.
    destruct (has_id (id job) k) eqn:E; [|by right].
    left. by rewrite (Huniq k Hk E).
  - unfold sql_update. cbn [snd].
    by rewrite length_map, after_recovery_length.
Qed.

(** X18. An [active] row whose [started_at] is not older than the timeout
    is not touched by [claimNextJob], whatever the call returns: a job is
    never failed before its time is up, the instant the timeout ends
    included. *)
Theorem claimNextJob_spares_fresh_active (now : Z) (t : table) (j : job)
    (s : Z) :
  List.NoDup (List.map id t) →
  In j t →
  status j = active →
  started_at j = Some s →
  now - 60 * Z.of_N (jobTimeoutMinutes config) ≤ s →
  In j (claimNextJob config now t).2.
Proof.
  intros Hnd Hj Hs Hst Hle.
  assert (Hfresh : ∀ n, stale config now n j = false).
  { intros n. destruct (stale config now n j) eqn:E; [|done].
    apply stale_true in E as (_ & _ & s' & Hs' & Hlt).
    rewrite Hst in Hs'. injection Hs' as <-. lia. }
  assert (Hj2 : In j (after_recovery config now t)).
  { apply after_recovery_In. exists j. by rewrite !Hfresh. }
  rewrite claimNextJob_unfold.
  destruct (sql_select_oldest is_waiting (after_recovery config now t))
    as [job|] eqn:Esel; [|done].
  destruct (JSON_parse (data job)); [|done]. cbn [snd].
  apply sql_update_untouched; [done|].
  destruct (has_id (id job) j) eqn:E; [|done].
  apply has_id_true in E.
  apply sql_select_oldest_Some in Esel as (Hjob & Hw%status_eqb_eq & _).
  assert (j = job) as ->; [|congruence].
  apply (NoDup_map_In_eq id (after_recovery config now t)); auto.
  by rewrite after_recovery_ids.
Qed.

Lemma filter_filter_absorb (p q : job → bool) (t : table) :
  (∀ j, q j = true → p j = true) →
  List.filter q (List.filter p t) = List.filter q t.
Proof.
  intros H. induction t as [|j t IH]; [done|]. simpl.
  destruct (p j) eqn:Ep; simpl; destruct (q j) eqn:Eq; try by rewrite IH.
  rewrite (H j Eq) in Ep. done.
Qed.

(** X19. Sweeping again later removes what one sweep at the later time
    would have removed: two calls of [cleanupOldJobs], the second not
    earlier than the first, leave the table the single later call leaves,
    and their two counts add up to its count.  In particular a second sweep
    at the same time removes nothing. *)
Theorem cleanupOldJobs_twice (now now' : Z) (t : table) :
  now ≤ now' →
  ∃ n1 t1 n2 n t',
    cleanupOldJobs config now t = (Returned n1, t1)
    ∧ cleanupOldJobs config now' t1 = (Returned n2, t')
    ∧ cleanupOldJobs config now' t = (Returned n, t')
    ∧ (n1 + n2 = n)%nat.
Proof.
  intros Hle.
  assert (Heq : (sql_delete (expired config now')
                   (sql_delete (expired config now) t).2).2
                = (sql_delete (expired config now') t).2).
  { unfold sql_delete. cbn [snd]. apply filter_filter_absorb.
    intros j Hk. apply negb_true_iff. apply negb_true_iff in Hk.
    destruct (expired config now j) eqn:E; [|done].
    apply expired_true in E as (Hs & done_at & Hd & Hlt).
    assert (expired config now' j = true); [|congruence].
    apply expired_true. split; [done|]. exists done_at. split; [done|lia]. }
  exists (sql_delete (expired config now) t).1,
         (sql_delete (expired config now) t).2,
         (sql_delete (expired config now')
            (sql_delete (expired config now) t).2).1,
         (sql_delete (expired config now') t).1,
         (sql_delete (expired config now') t).2.
  unfold cleanupOldJobs. rewrite !run_eq, Heq.
  repeat split.
  assert (H1 := sql_delete_count (expired config now) t).
  assert (H2 := sql_delete_count (expired config now')
                  (sql_delete (expired config now) t).2).
  assert (H3 := sql_delete_count (expired config now') t).
  rewrite Heq in H2. lia.
Qed.

Lemma apply_call_parseable (t : table) (c : Z * call) :
  List.NoDup (List.map id t) →
  parseable t →
  (∀ now u ty d, c = (now, Insert u ty d) →
     is_Some (JSON_parse (JSON_stringify d))) →
  parseable (apply_call config t c).
Proof.
  intros Hnd Hp Hc j'
    [(j & Hj & Hstep)|(now & ty & d & -> & _ & _ & _ & _ & _ & _ & Hd)]
    %apply_call_rows; [| |done].
  - destruct (row_steps_payload _ _ Hstep) as (_ & -> & _). by apply Hp.
  - rewrite Hd. by eapply Hc.
Qed.

(** X20. When every payload a history inserts is one whose JSON text
    [JSON.parse] reads, every payload stored in the table it reaches is a
    JSON text, and [claimNextJob] called on that table returns: it does not
    throw. *)
Theorem claimNextJob_returns_on_reachable (cs : list (Z * call)) :
  (∀ now u ty d, In (now, Insert u ty d) cs →
     is_Some (JSON_parse (JSON_stringify d))) →
  parseable (run_calls config cs [])
  ∧ ∀ now, ∃ r t',
      claimNextJob config now (run_calls config cs []) = (Returned r, t').
Proof.
  intros Hcs.
  assert (Hp : ∀ cs' (t : table),
            List.NoDup (List.map id t) → parseable t →
            (∀ now u ty d, In (now, Insert u ty d) cs' →
               is_Some (JSON_parse (JSON_stringify d))) →
            parseable (run_calls config cs' t)).
  { induction cs' as [|c cs' IH]; intros t Hnd Ht Hins; [done|].
    simpl. apply IH.
    - by apply apply_call_NoDup.
    - apply apply_call_parseable; auto.
      intros now u ty d ->. apply (Hins now u ty d). by left.
    - intros now u ty d Hin. apply (Hins now u ty d). by right. }
  assert (Hpar : parseable (run_calls config cs [])).
  { apply Hp; [constructor|by intros ? []|done]. }
  split; [done|]. intros now. rewrite claimNextJob_unfold.
  destruct (sql_select_oldest is_waiting _) as [job|] eqn:Esel;
    [|by eauto].
  apply sql_select_oldest_Some in Esel as (Hjob & _).
  destruct (after_recovery_parseable config now _ Hpar job Hjob) as [d ->].
  by eauto.
Qed.

End ClaimAndSweep.

(** ** More on [POST] and on the order of claims *)

(** X21. [POST] never modifies or removes a row: either it leaves the
    table as it was, or the body was read and accepted by
    [validateJobInput] and the table has one more row, the new [waiting]
    job. *)
Theorem POST_only_appends {J : JSON} (config : Config) (uuid : string)
    (now : Z) (request_body : string) (t : table) :
  (POST config uuid now request_body t).2 = t
  ∨ ∃ body ty d,
      JSON_parse request_body = Some body
      ∧ validateJobInput config body = Ok ty d
      ∧ POST config uuid now request_body t =
          (Returned {| http_status := 201;
                       json := Some (VObj [("id", VStr uuid);
                                           ("status", VStr "waiting")]) |},
           t ++ [new_row now uuid ty (JSON_stringify d)]).
Proof.
  unfold POST. destruct (JSON_parse request_body) as [body|]; [|by left].
  destruct (validateJobInput config body) as [ty d|e] eqn:Ev; [|by left].
  unfold mbind, db_bind, addJob.
  destruct (sql_insert now uuid ty (JSON_stringify d) t) as [t'|] eqn:Ei;
    [|by left].
  right. exists body, ty, d. apply sql_insert_Some in Ei as [_ ->]. done.
Qed.

Section ClaimOrder.
Context {J : JSON} (config : Config).

Lemma waiting_after_recovery_was_waiting now (t : table) k :
  table_consistent t →
  In k (after_recovery config now t) → status k = waiting →
  In k t.
Proof.
  intros [_ Hrows] (j & Hj & ->)%after_recovery_In Hw.
  destruct (stale config now 0 j) eqn:E0.
  { apply stale_true in E0 as (Hs & Hr & _).
    specialize (Hrows j Hj). unfold row_consistent in Hrows.
    rewrite Hs in Hrows. lia. }
  destruct (stale config now 1 j); [done|done].
Qed.

(** X22. First in, first out over two claims: when, from a reachable
    table, [claimNextJob] returns a job and the next [claimNextJob] returns
    another, the two are different jobs of the table and the first was not
    created after the second. *)
Theorem consecutive_claims_in_creation_order (now now' : Z)
    (t t1 t2 : table) (c1 c2 : claimed) :
  reachable config t →
  claimNextJob config now t = (Returned (Some c1), t1) →
  claimNextJob config now' t1 = (Returned (Some c2), t2) →
  ∃ j1 j2,
    In j1 t ∧ In j2 t
    ∧ id j1 = job_id c1 ∧ id j2 = job_id c2
    ∧ id j1 ≠ id j2
    ∧ created_at j1 ≤ created_at j2.
Proof.
  intros Hr H1 H2.
  assert (Ht := reachable_consistent config t Hr).
  assert (Ht1 : table_consistent t1).
  { replace t1 with (apply_call config t (now, ClaimNext));
      [by apply apply_call_consistent|]. simpl. by rewrite H1. }
  rewrite claimNextJob_unfold in H1, H2.
  destruct (sql_select_oldest is_waiting (after_recovery config now t))
    as [job1|] eqn:E1; [|done].
  destruct (JSON_parse (data job1)) as [d1|]; [|done].
  injection H1 as <- <-.
  destruct (sql_select_oldest is_waiting (after_recovery config now' _))
    as [job2|] eqn:E2; [|done].
  destruct (JSON_parse (data job2)) as [d2|]; [|done].
  injection H2 as <- _.
  apply sql_select_oldest_Some in E1 as (Hj1 & Hw1%status_eqb_eq & Hmin).
  apply sql_select_oldest_Some in E2 as (Hj2 & Hw2%status_eqb_eq & _).
  apply (waiting_after_recovery_was_waiting now' _ job2 Ht1) in Hj2;
    [|done].
  apply sql_update_In in Hj2 as (k & Hk & Hj2).
  destruct (has_id (id job1) k) eqn:Ek.
  { rewrite Hj2 in Hw2. done. }
  subst k.
  assert (Hne : id job1 ≠ id job2).
  { intros Heq. symmetry in Heq. apply has_id_true in Heq. congruence. }
  exists job1, job2. cbn [job_id].
  split; [by apply (waiting_after_recovery_was_waiting now t)|].
  split; [by apply (waiting_after_recovery_was_waiting now t)|].
  repeat split; [done|].
  apply Hmin; [done|]. by apply status_eqb_eq.
Qed.

End ClaimOrder.

(** ** The further properties at work *)

Section FurtherExamples.
#[local] Existing Instance sample_JSON.

Lemma two_waiting_ids : List.NoDup (List.map id two_waiting).
Proof.
  repeat constructor; simpl; intuition discriminate.
Defined.

Lemma job_a_claimed_ids : List.NoDup (List.map id job_a_claimed).
Proof. repeat constructor. intros []. Defined.

Lemma job_a_completed_ids : List.NoDup (List.map id job_a_completed).
Proof. repeat constructor. intros []. Defined.

Lemma POST_creates_waiting_job_witness :
  POST default_config "a" 0 (stringify_sample valid_job_body) [] =
    (Returned {| http_status := 201;
                 json := Some (VObj [("id", VStr "a");
                                     ("status", VStr "waiting")]) |},
     [] ++ [new_row 0 "a" "email"
              (JSON_stringify (VObj [("to", VStr "x")]))]).
Proof.
  apply (POST_creates_waiting_job default_config "a" 0 _ valid_job_body).
  - reflexivity.
  - reflexivity.
  - intros j [].
Defined.

Lemma PUT_not_active_is_404_witness :
  PUT completeJob_no_result 5 "zzz" (stringify_sample completed_body) two_waiting =
    (Returned {| http_status := 404;
                 json := Some (VObj [("error",
                           VStr "Job not found or not active")]) |},
     two_waiting).
Proof.
  apply (PUT_not_active_is_404 completeJob_no_result 5 "zzz" _ completed_body
           report_completed (Some (VObj [("sent", VBool true)])) None).
  - reflexivity.
  - reflexivity.
  - intros _. eexists. reflexivity.
  - intros j [<-|[<-|[]]] _; discriminate.
Defined.

Lemma PUT_completes_active_job_witness :
  ∃ t',
    PUT completeJob_no_result 20 "a" (stringify_sample completed_body)
      job_a_claimed =
      (Returned {| http_status := 200;
                   json := Some (VObj [("success", VBool true)]) |}, t')
    ∧ In (set_completed 20 (JSON_stringify (VObj [("sent", VBool true)]))
            row_a_active) t'.
Proof.
  destruct (PUT_completes_active_job completeJob_no_result 20
              (stringify_sample completed_body) completed_body
              (VObj [("sent", VBool true)]) None job_a_claimed row_a_active)
    as (t' & H1 & H2 & _).
  - reflexivity.
  - reflexivity.
  - left. reflexivity.
  - reflexivity.
  - exists t'. split; assumption.
Defined.

Lemma PUT_failed_records_error_witness :
  ∃ t',
    PUT completeJob_no_result 20 "a" (stringify_sample failed_body_without_error)
      job_a_claimed =
      (Returned {| http_status := 200;
                   json := Some (VObj [("success", VBool true)]) |}, t')
    ∧ In (set_failed 20 "Unknown error" row_a_active) t'.
Proof.
  destruct (PUT_failed_records_error completeJob_no_result 20
              (stringify_sample failed_body_without_error)
              failed_body_without_error None None job_a_claimed row_a_active)
    as (t' & text & H1 & H2 & _ & H4).
  - reflexivity.
  - reflexivity.
  - left. reflexivity.
  - reflexivity.
  - exists t'. split; [assumption|].
    rewrite <- H4; [assumption|]. intros e' H. discriminate H.
Defined.

Lemma report_takes_effect_once_witness :
  ∃ t',
    completeJob 20 "a" (VBool true) job_a_claimed = (Returned true, t')
    ∧ In row_a_completed t'
    ∧ failJob 30 "a" "late" t' = (Returned false, t').
Proof.
  destruct (report_takes_effect_once job_a_claimed 20 (VBool true) "boom"
              row_a_active) as [(t' & H1 & H2 & H3) _].
  - left. reflexivity.
  - reflexivity.
  - exists t'. split; [assumption|]. split; [assumption|].
    exact (proj2 (H3 30 VNull "late")).
Defined.

Lemma payload_never_changes_witness :
  List.Forall
    (fun j' =>
       (∃ j, In j two_waiting ∧ id j' = id j ∧ type j' = type j
             ∧ data j' = data j ∧ created_at j' = created_at j)
       ∨ In (id j') (inserted_ids claim_then_complete))
    (run_calls default_config claim_then_complete two_waiting).
Proof.
  apply List.Forall_forall.
  apply (payload_never_changes default_config claim_then_complete).
  exact two_waiting_ids.
Defined.

Lemma only_the_sweep_deletes_witness :
  (∀ j, In j two_waiting →
     ∃ j', In j' (apply_call default_config two_waiting (5, ClaimNext))
           ∧ id j' = id j)
  ∧ (length two_waiting
     ≤ length (apply_call default_config two_waiting (5%Z, ClaimNext)))%nat.
Proof.
  apply (only_the_sweep_deletes default_config).
  intros now H. discriminate H.
Defined.

Lemma terminal_row_is_final_witness :
  In row_a_completed
    (apply_call default_config job_a_completed (25, ClaimNext))
  ∨ ∃ now done_at,
      (25, ClaimNext) = (now, Sweep)
      ∧ completed_at row_a_completed = Some done_at
      ∧ retention default_config < now - done_at.
Proof.
  apply (terminal_row_is_final default_config).
  - exact job_a_completed_ids.
  - left. reflexivity.
  - left. reflexivity.
Defined.

Lemma no_double_claim_witness :
  (times_claimed default_config "a" three_claims [] ≤ 1)%nat.
Proof.
  apply (no_double_claim default_config).
  repeat constructor. intros [].
Defined.

Lemma reachable_rows_shape_witness :
  List.NoDup (List.map id job_a_completed)
  ∧ ∀ j, In j job_a_completed →
      (is_Some (result j) → status j = completed)
      ∧ (is_Some (error j) ↔ status j = failed)
      ∧ (is_Some (completed_at j) ↔
         status j = completed ∨ status j = failed).
Proof.
  apply (reachable_rows_shape default_config).
  eexists. reflexivity.
Defined.

Lemma GET_is_claim_then_sweep_witness :
  GET default_config 5 two_waiting =
  match claimNextJob default_config 5 two_waiting with
  | (Returned job, t') =>
      (Returned (job_response job), (cleanupOldJobs default_config 5 t').2)
  | (Thrown msg, t') => (Thrown msg, (cleanupOldJobs default_config 5 t').2)
  end.
Proof.
  apply (GET_is_claim_then_sweep default_config).
  exact two_waiting_ids.
Defined.

Lemma claimNextJob_marks_the_job_witness :
  ∃ job,
    In job (after_recovery default_config 5 two_waiting)
    ∧ status job = waiting
    ∧ "a" = id job ∧ "email" = type job
    ∧ In (set_active 5 job) (claimNextJob default_config 5 two_waiting).2.
Proof.
  destruct (claimNextJob_marks_the_job default_config 5 two_waiting
              (claimNextJob default_config 5 two_waiting).2
              {| job_id := "a"; job_type := "email"; job_data := VStr "hi" |})
    as (job & H1 & H2 & H3 & H4 & H5 & _).
  - exact two_waiting_ids.
  - reflexivity.
  - exists job. repeat split; assumption.
Defined.

Lemma claimNextJob_spares_fresh_active_witness :
  In row_a_active (claimNextJob default_config 1810 job_a_claimed).2.
Proof.
  apply (claimNextJob_spares_fresh_active default_config 1810 job_a_claimed
           row_a_active 10).
  - exact job_a_claimed_ids.
  - left. reflexivity.
  - reflexivity.
  - reflexivity.
  - vm_compute. discriminate.
Defined.

Lemma cleanupOldJobs_twice_witness :
  ∃ n1 t1 n2 n t',
    cleanupOldJobs default_config 100 job_a_completed = (Returned n1, t1)
    ∧ cleanupOldJobs default_config 3000000 t1 = (Returned n2, t')
    ∧ cleanupOldJobs default_config 3000000 job_a_completed = (Returned n, t')
    ∧ (n1 + n2 = n)%nat.
Proof.
  apply (cleanupOldJobs_twice default_config 100 3000000). lia.
Defined.

Lemma claimNextJob_returns_on_reachable_witness :
  parseable (run_calls default_config three_claims [])
  ∧ ∀ now, ∃ r t',
      claimNextJob default_config now (run_calls default_config three_claims [])
      = (Returned r, t').
Proof.
  apply (claimNextJob_returns_on_reachable default_config three_claims).
  intros now u ty d [H|[H|[H|[H|[]]]]]; inversion H; subst.
  eexists. reflexivity.
Defined.

Lemma consecutive_claims_in_creation_order_witness :
  ∃ j1 j2,
    In j1 two_waiting ∧ In j2 two_waiting
    ∧ id j1 = "a" ∧ id j2 = "b"
    ∧ id j1 ≠ id j2
    ∧ created_at j1 ≤ created_at j2.
Proof.
  apply (consecutive_claims_in_creation_order default_config 5 6 two_waiting
           (claimNextJob default_config 5 two_waiting).2
           (claimNextJob default_config 6
              (claimNextJob default_config 5 two_waiting).2).2
           {| job_id := "a"; job_type := "email"; job_data := VStr "hi" |}
           {| job_id := "b"; job_type := "sms"; job_data := VNull |}).
  - eexists. reflexivity.
  - reflexivity.
  - reflexivity.
Defined.

End FurtherExamples.
